(** * The RSS cog: entry times, match rules, update selection, fetching
      and feed discovery ([rss/core.py])

    A shallow embedding of the pure core of [RSS.fetch_feed],
    [RSS.process_entry_time], [RSS.find_feeds] and of the selection part
    of [RSS.format_and_send] with its inner [meets_rule].

    Modelling conventions.
    - A Python [int] is a [Z]; a tuple or list of ints is a [list Z],
      compared the way Python compares sequences.
    - A Python [str] is the [string] of the bytes of its UTF-8 encoding.
      [casefold] folds the ASCII letters, [A]..[Z] to [a]..[z], and leaves
      every other byte alone; the foldings of [str.casefold] outside the
      ASCII range are not modelled.
    - A feed entry ([FeedParserDict]) is a record.  In [Entry] the two
      parsed time fields hold a [time.struct_time] when present; [Raw.Entry]
      is the entry as the parser hands it over, in which such a key may also
      be there with the value [None].  Every other field lives in a finite
      map from field names to values, under the names by which attribute
      lookup finds it.
    - The network, the feed parser, the HTML parser and [urlparse] are
      external: they are variables of the sections that use them. *)

From Stdlib Require Import ZArith Lia Bool Ascii String List Sorted Permutation.
From stdpp Require Import base option list gmap strings sorting.

Local Open Scope Z_scope.

(** ** Python sequence comparison on tuples of ints *)

Module PyTuple.

(** [a < b]: the first index where the tuples differ decides; when one
    is a prefix of the other the shorter one is the smaller. *)
Fixpoint tuple_lt (a b : list Z) : bool :=
  match a, b with
  | x :: a', y :: b' => if x =? y then tuple_lt a' b' else x <? y
  | [], _ :: _ => true
  | _, [] => false
  end.

(** [a > b], written out the same way. *)
Fixpoint tuple_gt (a b : list Z) : bool :=
  match a, b with
  | x :: a', y :: b' => if x =? y then tuple_gt a' b' else x >? y
  | _ :: _, [] => true
  | [], _ => false
  end.

(** [a <= b] is what [sorted] leaves between neighbours: [not (b < a)]. *)
Definition tuple_le (a b : list Z) : bool := negb (tuple_lt b a).

(** [sorted(l, key=key)]: Python's sort is stable and compares keys with
    [<] only.  The model is the stable insertion sort: [x], which stood
    before every element of [l], goes in front of the first element whose
    key is not smaller than its own. *)
Fixpoint insert_by {A} (key : A → list Z) (x : A) (l : list A) : list A :=
  match l with
  | [] => [x]
  | y :: l' =>
      if tuple_lt (key y) (key x) then y :: insert_by key x l'
      else x :: y :: l'
  end.

Fixpoint sorted {A} (key : A → list Z) (l : list A) : list A :=
  match l with
  | [] => []
  | x :: l' => insert_by key x (sorted key l')
  end.

(** The order [sorted] establishes between the elements. *)
Definition key_le {A} (key : A → list Z) (a b : A) : Prop :=
  tuple_le (key a) (key b) = true.

(** The larger of two tuples. *)
Definition tuple_max (a b : list Z) : list Z :=
  if tuple_lt a b then b else a.

End PyTuple.
Export PyTuple.

(** ** Python strings: [casefold] and the [in] operator *)

Module PyStr.

Definition is_upper (c : ascii) : bool :=
  let n := N_of_ascii c in ((65 <=? n) && (n <=? 90))%N.

Definition casefold_char (c : ascii) : ascii :=
  if is_upper c then ascii_of_N (N_of_ascii c + 32) else c.

(** [s.casefold()], as far as the ASCII letters go: every other byte of
    the UTF-8 text is left as it is. *)
Fixpoint casefold (s : string) : string :=
  match s with
  | EmptyString => EmptyString
  | String c s' => String (casefold_char c) (casefold s')
  end.

(** [t in s] on strings: [t] occurs in [s] at some position. *)
Fixpoint str_in (t s : string) : bool :=
  String.prefix t s ||
  match s with
  | EmptyString => false
  | String _ s' => str_in t s'
  end.

(** Some character of [s] is an ASCII upper-case letter, [A] to [Z]. *)
Fixpoint has_upper (s : string) : bool :=
  match s with
  | EmptyString => false
  | String c s' => is_upper c || has_upper s'
  end.

End PyStr.
Export PyStr.

(** ** Feed entries *)

(** [time.struct_time]: a named 9-tuple. *)
Record struct_time := mk_struct_time {
  tm_year : Z; tm_mon : Z; tm_mday : Z; tm_hour : Z; tm_min : Z;
  tm_sec : Z; tm_wday : Z; tm_yday : Z; tm_isdst : Z
}.

(** [tuple(t)] *)
Definition tuple (t : struct_time) : list Z :=
  [tm_year t; tm_mon t; tm_mday t; tm_hour t; tm_min t;
   tm_sec t; tm_wday t; tm_yday t; tm_isdst t].

(** An element of a list-valued field: a string, or a sub-record, of which
    [term in item] only looks at the keys. *)
Inductive item :=
  | IStr (s : string)
  | IDict (keys : list string).

(** The value of an entry field.  [VOther] stands for every other kind of
    value ([None], numbers, sub-records), of which the code only looks at the
    truth value. *)
Inductive value :=
  | VStr (s : string)
  | VList (items : list item)
  | VTime (t : struct_time)
  | VOther (truth : bool).

(** An entry.  The two parsed time fields are kept apart from the other
    fields because of their type: when the key is there the value is a
    [struct_time], which is what [tuple(...)[:5]] needs.  [fields] holds
    every other key of the mapping.

    This is the entry whose dates the parser could read.  The parser stores
    [None] under a parsed time key when it cannot read the date; such
    entries are those of [Raw.Entry] below, on which [tuple(None)] raises,
    and [untyped] embeds the entries of this type among them. *)
Record Entry := mk_entry {
  published_parsed : option struct_time;
  updated_parsed : option struct_time;
  fields : gmap string value
}.

(** A parsed feed ([FeedParserDict] as [feedparser.parse] returns it). *)
Record FeedParserDict := mk_feed {
  entries : list Entry;
  bozo : bool
}.

(** [getattr(entry, name, None)] *)
Definition getattr (entry : Entry) (name : string) : option value :=
  if decide (name = "published_parsed") then VTime <$> published_parsed entry
  else if decide (name = "updated_parsed") then VTime <$> updated_parsed entry
  else fields entry !! name.

(** Truth value of a field value ([not d] is its negation). *)
Definition truthy (d : value) : bool :=
  match d with
  | VStr s => negb (String.eqb s "")
  | VList items => match items with [] => false | _ => true end
  | VTime _ => true
  | VOther b => b
  end.

(** Truth value of an entry: a mapping is false when it has no key. *)
Definition entry_truthy (e : Entry) : bool :=
  match published_parsed e, updated_parsed e with
  | None, None => negb (bool_decide (fields e = ∅))
  | _, _ => true
  end.

(** [term in item] *)
Definition item_contains (term : string) (i : item) : bool :=
  match i with
  | IStr s => str_in term s
  | IDict keys => bool_decide (term ∈ keys)
  end.

(** ** [RSS.process_entry_time] *)

Definition process_entry_time (x : Entry) : list Z :=
  match published_parsed x with
  | Some t => take 5 (tuple t)
  | None =>
      match updated_parsed x with
      | Some t => take 5 (tuple t)
      | None => [0]
      end
  end.

(** ** [meets_rule], the closure of [format_and_send] over [match_rule] *)

(** [match_req] is a [field, term] pair, or absent (an empty list). *)
Definition meets_rule (match_rule : option (string * string)) (entry : Entry)
  : bool :=
  match match_rule with
  | None => true
  | Some (field_name, term) =>
      match getattr entry field_name with
      | None => false
      | Some d =>
          if negb (truthy d) then false
          else match d with
               | VList items => existsb (item_contains term) items
               | VStr s => str_in term (casefold s)
               | _ => false
               end
      end
  end.

(** ** The selection of [RSS.format_and_send] *)

(** The settings of one feed that the selection reads: the stored cursor
    [last] (absent before the first delivery) and the match rule. *)
Record FeedSettings := mk_settings {
  last : option (list Z);
  match_req : option (string * string)
}.

(** [tuple((last or (0,))[:5])]: an absent or empty cursor is [(0,)]. *)
Definition effective_last (last : option (list Z)) : list Z :=
  take 5 (match last with
          | Some (y :: l) => y :: l
          | _ => [0]
          end).

(** The list comprehension of the normal branch, before sorting. *)
Definition newer_matching (match_rule : option (string * string))
    (last : list Z) (es : list Entry) : list Entry :=
  List.filter
    (fun e => tuple_gt (process_entry_time e) last && meets_rule match_rule e)
    es.

(** [to_send] as the two branches compute it; [None] is the early
    [return None] of the forced branch.

    The source file carries some lines of the previous revision next to the
    lines that replaced them: in the forced branch the
    [try: to_send = [response.entries[0]] / except IndexError:] in front of
    [_to_send = next(filter(meets_rule, response.entries), None)], and in the
    other branch a first comprehension without [meets_rule] in front of the
    one with it.  The embedding follows the replacing lines, the only
    reading under which the function is well formed.

    [next(filter(meets_rule, entries), None)] is [List.find]; the test
    [if not _to_send] is on the truth value of what was found. *)
Definition to_send (response : FeedParserDict) (feed_settings : FeedSettings)
    (force : bool) : option (list Entry) :=
  let match_rule := match_req feed_settings in
  if force then
    match List.find (meets_rule match_rule) (entries response) with
    | Some _to_send => if entry_truthy _to_send then Some [_to_send] else None
    | None => None
    end
  else
    let last := effective_last (last feed_settings) in
    Some (sorted process_entry_time
            (newer_matching match_rule last (entries response))).

(** Modelled from the spec: the end of [format_and_send] after the delivery
    loop, which the source file does not contain.  The value returned is
    the time-key of the last entry sent, and nothing when nothing was sent
    (``New cursor = the time-key of the last (latest) entry actually
    selected''). *)
Definition last_sent (sent : list Entry) : option (list Z) :=
  foldl (fun _ entry => Some (process_entry_time entry)) None sent.

Definition format_and_send (response : FeedParserDict)
    (feed_settings : FeedSettings) (force : bool) : option (list Z) :=
  to_send response feed_settings force ≫= last_sent.

(** Modelled from the spec: the caller's update of the stored cursor, which
    the source file does not contain (``if nothing selected, cursor is
    unchanged''). *)
Definition new_cursor (feed_settings : FeedSettings)
    (returned : option (list Z)) : option (list Z) :=
  match returned with
  | Some k => Some k
  | None => last feed_settings
  end.

(** One poll of a feed: the entries delivered and the settings afterwards.
    (For a forced delivery the specification fixes the cursor only when
    nothing is sent.) *)
Definition poll (response : FeedParserDict) (feed_settings : FeedSettings)
    (force : bool) : list Entry * FeedSettings :=
  (default [] (to_send response feed_settings force),
   {| last := new_cursor feed_settings
                (format_and_send response feed_settings force);
      match_req := match_req feed_settings |}).

(** ** Notions of the specification about the cursor *)

(** The maximum time-key among the entries of a list, if there is any. *)
Definition max_time_key (es : list Entry) : option (list Z) :=
  foldr (λ e acc,
           Some (match acc with
                 | Some k => tuple_max (process_entry_time e) k
                 | None => process_entry_time e
                 end))
        None es.

(** The stored cursors of the data model: absent or empty before the first
    delivery, the sentinel [(0,)], or the time-key of a calendar date, whose
    year is not negative. *)
Definition cursor_ok (last : option (list Z)) : bool :=
  match last with
  | Some (y :: _) => 0 <=? y
  | _ => true
  end.

(** ** [RSS.fetch_feed] and [RSS.find_feeds] *)

Definition bytes := list Byte.byte.

(** What [session.get(url)] followed by [response.read()] does. *)
Inductive response :=
  | Read (data : bytes)
  | ClientError                       (* aiohttp.ClientError *)
  | TimeoutError                      (* asyncio.TimeoutError *)
  | OtherException (type : string)    (* any other subclass of Exception *)
  | Cancelled.                        (* a BaseException, which no clause catches *)

(** A call either returns a value or lets an exception through. *)
Inductive outcome (A : Type) :=
  | Returns (a : A)
  | Raises.
Arguments Returns {A} a.
Arguments Raises {A}.

(** A tag of the parsed page with its attributes ([f.get(name, None)] is
    the lookup). *)
Record Tag := mk_tag { attrs : gmap string string }.

(** The parsed page, seen through the two queries the code makes:
    [html.findAll("link", rel="alternate")] and [html.findAll("a")]. *)
Record Html := mk_html {
  links_alternate : list Tag;
  a_tags : list Tag
}.

Definition nonempty (s : string) : bool := negb (String.eqb s "").

Section Network.

Variable session_get : string → response.
(** [feedparser.parse] *)
Variable parse : bytes → FeedParserDict.
(** [bs4(data)] *)
Variable bs4 : bytes → Html.
(** [urllib.parse.urlparse(site)]: the scheme (empty when there is none)
    and the host name (absent when there is none). *)
Variable urlparse : string → string * option string.

(** Logging and the dispatch of the [sinbadcogs_rss_fetch] event do not
    bear on the value returned and are left out. *)
Definition fetch_feed (url : string) : outcome (option FeedParserDict) :=
  match session_get url with
  | Read data =>
      let ret := parse data in
      if bozo ret then Returns None else Returns (Some ret)
  | ClientError | TimeoutError => Returns None
  | OtherException _ => Returns None
  | Cancelled => Raises
  end.

(** Body of the loop over the [link] tags. *)
Definition add_link (possible_feeds : gset string) (f : Tag) : gset string :=
  match attrs f !! "type" with
  | Some t =>
      if nonempty t && (str_in "rss" t || str_in "xml" t) then
        match attrs f !! "href" with
        | Some href =>
            if nonempty href then {[href]} ∪ possible_feeds
            else possible_feeds
        | None => possible_feeds
        end
      else possible_feeds
  | None => possible_feeds
  end.

(** Body of the loop over the [a] tags. *)
Definition add_anchor (base : string) (possible_feeds : gset string)
    (a : Tag) : gset string :=
  match attrs a !! "href" with
  | Some href =>
      if nonempty href
         && (str_in "xml" href || str_in "rss" href || str_in "feed" href)
      then {[base +:+ href]} ∪ possible_feeds
      else possible_feeds
  | None => possible_feeds
  end.

(** The candidates collected from the page. *)
Definition possible_feeds (site : string) (html : Html) : gset string :=
  let feed_urls := links_alternate html in
  let possible_feeds :=
    if (1 <? length feed_urls)%nat then foldl add_link ∅ feed_urls else ∅ in
  match urlparse site with
  | (scheme, Some hostname) =>
      if nonempty scheme && nonempty hostname then
        let base := scheme +:+ "://" +:+ hostname in
        foldl (add_anchor base) possible_feeds (a_tags html)
      else possible_feeds
  | (_, None) => possible_feeds
  end.

(** [[site for site in sites if await self.fetch_feed(site)]]: the sites
    are fetched in turn, and a site is kept when a document came back (a
    parsed feed always has keys, so it is a true value). *)
Fixpoint validated (sites : list string) : outcome (list string) :=
  match sites with
  | [] => Returns []
  | site :: rest =>
      match fetch_feed site with
      | Raises => Raises
      | Returns r =>
          match validated rest with
          | Raises => Raises
          | Returns l =>
              Returns (match r with Some _ => site :: l | None => l end)
          end
      end
  end.

(** The candidates are a Python set, whose iteration order is not
    specified; [elements] fixes one. *)
Definition find_feeds (site : string) : outcome (list string) :=
  match session_get site with
  | Read data => validated (elements (possible_feeds site (bs4 data)))
  | _ => Raises
  end.

End Network.

(** ** Entries as the parser hands them over *)

(** [sorted(l, key=key)] with a key that may raise: the key of every
    element is computed first, in order, the pairs are sorted by key, and the
    elements are taken back out. *)
Fixpoint decorate {A} (key : A → outcome (list Z)) (l : list A)
  : outcome (list (list Z * A)) :=
  match l with
  | [] => Returns []
  | a :: l' =>
      match key a with
      | Raises => Raises
      | Returns k =>
          match decorate key l' with
          | Raises => Raises
          | Returns kl => Returns ((k, a) :: kl)
          end
      end
  end.

Definition sorted_by {A} (key : A → outcome (list Z)) (l : list A)
  : outcome (list A) :=
  match decorate key l with
  | Raises => Raises
  | Returns kl => Returns (snd <$> sorted fst kl)
  end.

Module Raw.

(** A parsed time key is absent, or there with [None] (the date could not
    be read), or there with a time. *)
Record Entry := mk_entry {
  published_parsed : option (option struct_time);
  updated_parsed : option (option struct_time);
  fields : gmap string value
}.

Record FeedParserDict := mk_feed {
  entries : list Entry;
  bozo : bool
}.

(** [tuple(v)] on the value of a parsed time key: [tuple(None)] raises
    [TypeError]. *)
Definition tuple_of (v : option struct_time) : outcome (list Z) :=
  match v with
  | Some t => Returns (tuple t)
  | None => Raises
  end.

(** [RSS.process_entry_time]: the test is on the key, the value is what
    [tuple] gets. *)
Definition process_entry_time (x : Entry) : outcome (list Z) :=
  match published_parsed x with
  | Some v =>
      match tuple_of v with
      | Returns l => Returns (take 5 l)
      | Raises => Raises
      end
  | None =>
      match updated_parsed x with
      | Some v =>
          match tuple_of v with
          | Returns l => Returns (take 5 l)
          | Raises => Raises
          end
      | None => Returns [0]
      end
  end.

(** The time-key of an entry on which [process_entry_time] returns (the
    empty tuple stands for the others). *)
Definition time_key (x : Entry) : list Z :=
  match process_entry_time x with
  | Returns k => k
  | Raises => []
  end.

(** The value under a parsed time key, [None] being a false value. *)
Definition time_value (v : option struct_time) : value :=
  match v with
  | Some t => VTime t
  | None => VOther false
  end.

(** [getattr(entry, name, None)] *)
Definition getattr (entry : Entry) (name : string) : option value :=
  if decide (name = "published_parsed")
  then time_value <$> published_parsed entry
  else if decide (name = "updated_parsed")
  then time_value <$> updated_parsed entry
  else fields entry !! name.

(** Truth value of an entry: a mapping is false when it has no key. *)
Definition entry_truthy (e : Entry) : bool :=
  match published_parsed e, updated_parsed e with
  | None, None => negb (bool_decide (fields e = ∅))
  | _, _ => true
  end.

(** [meets_rule] *)
Definition meets_rule (match_rule : option (string * string)) (entry : Entry)
  : bool :=
  match match_rule with
  | None => true
  | Some (field_name, term) =>
      match getattr entry field_name with
      | None => false
      | Some d =>
          if negb (truthy d) then false
          else match d with
               | VList items => existsb (item_contains term) items
               | VStr s => str_in term (casefold s)
               | _ => false
               end
      end
  end.

(** The list comprehension of the normal branch: the entries are taken in
    turn, the time-key of each is computed before the rule is looked at, and
    the first key that raises ends the comprehension. *)
Fixpoint newer_matching (match_rule : option (string * string))
    (last : list Z) (es : list Entry) : outcome (list Entry) :=
  match es with
  | [] => Returns []
  | e :: es' =>
      match process_entry_time e with
      | Raises => Raises
      | Returns k =>
          match newer_matching match_rule last es' with
          | Raises => Raises
          | Returns l =>
              Returns (if tuple_gt k last && meets_rule match_rule e
                       then e :: l else l)
          end
      end
  end.

(** [to_send]; [Returns None] is the early [return None] of the forced
    branch, [Raises] the [TypeError] of a date that was not parsed. *)
Definition to_send (response : FeedParserDict) (feed_settings : FeedSettings)
    (force : bool) : outcome (option (list Entry)) :=
  let match_rule := match_req feed_settings in
  if force then
    Returns
      match List.find (meets_rule match_rule) (entries response) with
      | Some _to_send => if entry_truthy _to_send then Some [_to_send] else None
      | None => None
      end
  else
    let last := effective_last (last feed_settings) in
    match newer_matching match_rule last (entries response) with
    | Raises => Raises
    | Returns l =>
        match sorted_by process_entry_time l with
        | Raises => Raises
        | Returns sel => Returns (Some sel)
        end
    end.

End Raw.

(** The test of the comprehension on an entry whose key is there. *)
Definition raw_newer (rule : option (string * string)) (cursor : list Z)
    (e : Raw.Entry) : bool :=
  tuple_gt (Raw.time_key e) cursor && Raw.meets_rule rule e.

(** An entry whose dates were read, among the entries of the parser. *)
Definition untyped (x : Entry) : Raw.Entry :=
  Raw.mk_entry (Some <$> published_parsed x) (Some <$> updated_parsed x)
               (fields x).

Definition untyped_feed (response : FeedParserDict) : Raw.FeedParserDict :=
  Raw.mk_feed (untyped <$> entries response) (bozo response).

(** ** Upper-case letters outside the ASCII range *)




(** [meets_rule] with the case folding as a parameter. *)
Definition meets_rule_with (fold : string → string)
    (match_rule : option (string * string)) (entry : Entry) : bool :=
  match match_rule with
  | None => true
  | Some (field_name, term) =>
      match getattr entry field_name with
      | None => false
      | Some d =>
          if negb (truthy d) then false
          else match d with
               | VList items => existsb (item_contains term) items
               | VStr s => str_in term (fold s)
               | _ => false
               end
      end
  end.

(** ** Sample data *)

Module Samples.

(** A date at minute granularity (the other components do not matter). *)
Definition date (y mo d h mi : Z) : struct_time :=
  mk_struct_time y mo d h mi 0 0 1 0.

(** An entry with a title and no time field. *)
Definition titled (title : string) : Entry :=
  mk_entry None None {[ "title" := VStr title ]}.

(** An entry published at a given minute. *)
Definition published_at (t : struct_time) (title : string) : Entry :=
  mk_entry (Some t) None {[ "title" := VStr title ]}.

(** An entry that was only ever updated. *)
Definition updated_at (t : struct_time) (title : string) : Entry :=
  mk_entry None (Some t) {[ "title" := VStr title ]}.

(** The entry of an empty [<item/>]: a mapping without any key. *)
Definition blank : Entry := mk_entry None None ∅.

(** The document of the scenario of the specification: three entries at
    0:00, 0:05 and 0:10 on 1 January 2024, newest first. *)
Definition three_entries : FeedParserDict :=
  mk_feed [published_at (date 2024 1 1 0 10) "third";
           published_at (date 2024 1 1 0 5) "second";
           published_at (date 2024 1 1 0 0) "first"] false.

Definition fresh : FeedSettings := mk_settings None None.

(** A page whose only [link] tag is
    [<link rel="alternate" type="application/rss+xml" href="/feed.xml">]
    and which has no anchor. *)
Definition feed_link : Tag :=
  mk_tag {[ "rel" := "alternate"; "type" := "application/rss+xml";
            "href" := "/feed.xml" ]}.

Definition page_one_link : Html := mk_html [feed_link] [].

(** The same page with the tag written twice. *)
Definition page_two_links : Html := mk_html [feed_link; feed_link] [].

(** A page with one anchor [<a href="/feed.xml">]. *)
Definition page_one_anchor : Html :=
  mk_html [] [mk_tag {[ "href" := "/feed.xml" ]}].

(** A network on which the page and the feed of [example.com] can be
    read, and nothing else. *)
Definition example_com (url : string) : response :=
  if String.eqb url "https://example.com/" then Read [Byte.x3c]
  else if String.eqb url "https://example.com/feed.xml" then Read []
  else ClientError.

Definition clean_parse (_ : bytes) : FeedParserDict := mk_feed [] false.

Definition urlparse_example_com (_ : string) : string * option string :=
  ("https", Some "example.com").

End Samples.

(** ** The event of a fetch *)

(** The payload of the [sinbadcogs_rss_fetch] event that [fetch_feed]
    dispatches once the body has been read and parsed:
    [listener_version=1], [response_regenerator=partial(feedparser.parse,
    data)], of which the bytes are kept, and [bozo=ret.bozo]. *)
Record FetchEvent := mk_fetch_event {
  listener_version : Z;
  regenerator_data : bytes;
  event_bozo : bool
}.

(** Calling the [response_regenerator] of an event. *)
Definition regenerate (parse : bytes → FeedParserDict) (ev : FetchEvent)
  : FeedParserDict :=
  parse (regenerator_data ev).

(** The events one call of [fetch_feed] dispatches: the [dispatch] stands
    after the [try] block, which is left by [return None] when the request
    fails, and before the test of [ret.bozo]. *)
Definition fetch_feed_dispatches (session_get : string → response)
    (parse : bytes → FeedParserDict) (url : string) : list FetchEvent :=
  match session_get url with
  | Read data =>
      let ret := parse data in
      [mk_fetch_event 1 data (bozo ret)]
  | _ => []
  end.

(** ** The fields a match rule may name *)

Definition USABLE_FIELDS : list string :=
  ["author"; "author_detail"; "description"; "comments"; "content";
   "contributors"; "created"; "updated"; "updated_parsed"; "link"; "name";
   "published"; "published_parsed"; "publisher"; "publisher_detail";
   "source"; "summary"; "summary_detail"; "tags"; "title"; "title_detail"].

Definition USABLE_TEXT_FIELDS : list string :=
  List.filter
    (λ f, negb (bool_decide
                  (f ∈ ["published"; "published_parsed"; "updated";
                        "updated_parsed"; "created"])))
    USABLE_FIELDS.

(** ** The feeds of a channel and the commands that edit them *)

(** What the configuration of a channel holds under a feed name: the two
    keys the selection reads, and the keys [role_mentions], [template] and
    [embed_override] that [format_and_send] reads for the rendering. *)
Record Feed := mk_feed_conf {
  settings : FeedSettings;
  role_mentions : option (list Z);
  template : option string;
  embed_override : option bool
}.

(** [feeds[feed_name]["match_req"] = ...] and
    [feeds[feed_name].pop("match_req", None)] *)
Definition with_match_req (f : Feed) (rule : option (string * string)) : Feed :=
  {| settings := {| last := last (settings f); match_req := rule |};
     role_mentions := role_mentions f;
     template := template f;
     embed_override := embed_override f |}.

(** [feeds[name]["role_mentions"] = ...] *)
Definition with_role_mentions (f : Feed) (ids : list Z) : Feed :=
  {| settings := settings f;
     role_mentions := Some ids;
     template := template f;
     embed_override := embed_override f |}.

(** What a command answers in the channel. *)
Inductive reply :=
  | NoFeedNamed (feed_name : string)  (* "No feed named ... in ..." *)
  | Tick                              (* [ctx.tick()] *)
  | TooManyRoles                      (* "I'm judging you hard here. ..." *)
  | RoleAboveOwn                      (* "I'm not letting you set a role ..." *)
  | RolesSet                          (* "I've set those roles to be mentioned." *)
  | RolesCleared.                     (* "Roles won't be mentioned." *)

(** [rss setmatchreq]: the feeds of the channel afterwards and the answers;
    [Raises] is the [commands.BadArgument] for a field that is not usable. *)
Definition rss_set_match_req (feeds : gmap string Feed) (feed_name : string)
    (field_and_term : string * string)
  : outcome (gmap string Feed * list reply) :=
  if negb (bool_decide (field_and_term.1 ∈ USABLE_TEXT_FIELDS)) then Raises
  else
    match feeds !! feed_name with
    | None => Returns (feeds, [NoFeedNamed feed_name])
    | Some f =>
        Returns (<[feed_name := with_match_req f (Some field_and_term)]> feeds,
                 [Tick])
    end.

(** [rss removematchreq] *)
Definition feed_remove_match_req (feeds : gmap string Feed)
    (feed_name : string) : gmap string Feed * list reply :=
  match feeds !! feed_name with
  | None => (feeds, [NoFeedNamed feed_name])
  | Some f => (<[feed_name := with_match_req f None]> feeds, [Tick])
  end.

Section Roles.

(** Roles are named by their ids, by which [set(...)] tells them apart.
    [role_gt a b] is [a > b] on [discord.Role], the order of the hierarchy
    of the guild, which belongs to the chat library. *)
Variable role_gt : Z → Z → bool.

(** [max(roles)]: the first item is kept until a greater one comes. *)
Definition max_role (roles : list Z) : option Z :=
  match roles with
  | [] => None
  | r :: rs => Some (foldl (λ m x, if role_gt x m then x else m) r rs)
  end.

(** [rss rolementions], called by an author whose highest role is
    [top_role] and who is the owner of the guild or not. *)
Definition feedset_mentions (feeds : gmap string Feed) (name : string)
    (non_everyone_roles : list Z) (top_role : Z) (author_is_owner : bool)
  : gmap string Feed * list reply :=
  let roles : gset Z := list_to_set non_everyone_roles in
  if (4 <? size roles)%nat then (feeds, [TooManyRoles])
  else if match max_role (elements roles) with
          | Some m => role_gt m top_role && negb author_is_owner
          | None => false
          end
  then (feeds, [RoleAboveOwn])
  else
    match feeds !! name with
    | None => (feeds, [NoFeedNamed name])
    | Some f =>
        (<[name := with_role_mentions f (elements roles)]> feeds,
         [if bool_decide (roles = ∅) then RolesCleared else RolesSet; Tick])
    end.

End Roles.

(** ** Sample entries with dates that were not read *)

Module RawSamples.

Definition published_at (t : struct_time) (title : string) : Raw.Entry :=
  Raw.mk_entry (Some (Some t)) None {[ "title" := VStr title ]}.

(** An entry whose published date the parser could not read:
    [published_parsed] is there with [None]. *)
Definition unparsed (title : string) : Raw.Entry :=
  Raw.mk_entry (Some None) None {[ "title" := VStr title ]}.

(** The same with an updated date that was read. *)
Definition unparsed_but_updated (t : struct_time) (title : string) : Raw.Entry :=
  Raw.mk_entry (Some None) (Some (Some t)) {[ "title" := VStr title ]}.

(** An entry whose only date, the updated one, could not be read. *)
Definition updated_unparsed (title : string) : Raw.Entry :=
  Raw.mk_entry None (Some None) {[ "title" := VStr title ]}.

(** A document with a new entry and, after it, an entry without a readable
    date. *)
Definition one_unparsed : Raw.FeedParserDict :=
  Raw.mk_feed [published_at (Samples.date 2024 1 1 0 10) "news";
               unparsed "no date"] false.

End RawSamples.

(** ** A sample channel *)

Module SampleChannel.

(** A feed that has never delivered, without rule, roles or template. *)
Definition news : Feed := mk_feed_conf Samples.fresh None None None.

(** A feed with a cursor, a rule and roles. *)
Definition releases : Feed :=
  mk_feed_conf (mk_settings (Some [2024; 1; 1; 0; 5]) (Some ("title", "v2")))
               (Some [7; 9]) (Some "$title") (Some true).

Definition channel : gmap string Feed :=
  {[ "news" := news; "releases" := releases ]}.

(** Roles ordered by their number. *)
Definition by_number (a b : Z) : bool := a >? b.

End SampleChannel.

(** ** Where the candidates of discovery come from *)

(** A site passes the test of the last comprehension when [fetch_feed]
    gives a document for it. *)
Definition fetch_ok (session_get : string → response)
    (parse : bytes → FeedParserDict) (u : string) : bool :=
  match fetch_feed session_get parse u with
  | Returns (Some _) => true
  | _ => false
  end.

(** [u] is what the loop over the [link] tags adds for the tag [f]: the
    [href] of a tag whose [type] holds [rss] or [xml]. *)
Definition link_candidate (f : Tag) (u : string) : Prop :=
  ∃ t, attrs f !! "type" = Some t
       ∧ str_in "rss" t || str_in "xml" t = true
       ∧ attrs f !! "href" = Some u
       ∧ u ≠ "".

(** [u] is what the loop over the [a] tags adds for the tag [a]: the [href],
    when it holds [xml], [rss] or [feed], written after [base]. *)
Definition anchor_candidate (base : string) (a : Tag) (u : string) : Prop :=
  ∃ href, attrs a !! "href" = Some href
          ∧ str_in "xml" href || str_in "rss" href || str_in "feed" href = true
          ∧ u = base +:+ href.

(** * Properties *)

(** ** The order on tuples *)

Section TupleOrder.

Lemma tuple_gt_lt a b : tuple_gt a b = tuple_lt b a.
Proof.
  revert b; induction a as [|x a IH]; intros [|y b]; simpl; try reflexivity.
  rewrite (Z.eqb_sym y x), IH, Z.gtb_ltb. reflexivity.
Qed.

Lemma tuple_lt_irrefl a : tuple_lt a a = false.
Proof. induction a as [|x a IH]; simpl; [|rewrite Z.eqb_refl]; done. Qed.

Lemma tuple_lt_trans a b c :
  tuple_lt a b = true → tuple_lt b c = true → tuple_lt a c = true.
Proof.
  revert b c; induction a as [|x a IH]; intros [|y b] [|z c]; simpl;
    try done.
  destruct (Z.eqb_spec x y) as [->|Hxy]; destruct (Z.eqb_spec y z) as [->|Hyz].
  - apply IH.
  - intros _ H. done.
  - intros H _. by destruct (Z.eqb_spec x z).
  - intros H1%Z.ltb_lt H2%Z.ltb_lt.
    destruct (Z.eqb_spec x z); [lia|]. apply Z.ltb_lt; lia.
Qed.

Lemma tuple_lt_asym a b : tuple_lt a b = true → tuple_lt b a = false.
Proof.
  intros H. destruct (tuple_lt b a) eqn:Hba; [|done].
  rewrite <- (tuple_lt_irrefl a). symmetry. by apply tuple_lt_trans with b.
Qed.

(** Two tuples that neither way are smaller are the same tuple. *)
Lemma tuple_lt_connex a b :
  tuple_lt a b = false → tuple_lt b a = false → a = b.
Proof.
  revert b; induction a as [|x a IH]; intros [|y b]; simpl; try done.
  rewrite (Z.eqb_sym y x).
  destruct (Z.eqb_spec x y) as [->|Hxy].
  - intros H1 H2. f_equal. by apply IH.
  - intros H1%Z.ltb_ge H2%Z.ltb_ge. lia.
Qed.

Lemma tuple_le_refl a : tuple_le a a = true.
Proof. unfold tuple_le. by rewrite tuple_lt_irrefl. Qed.

Lemma tuple_lt_le a b : tuple_lt a b = true → tuple_le a b = true.
Proof. intros H. unfold tuple_le. by rewrite (tuple_lt_asym _ _ H). Qed.

Lemma tuple_le_total a b : tuple_le a b = true ∨ tuple_le b a = true.
Proof.
  unfold tuple_le. destruct (tuple_lt b a) eqn:H; [right|by left].
  by rewrite (tuple_lt_asym _ _ H).
Qed.

Lemma tuple_le_lt_trans a b c :
  tuple_le a b = true → tuple_lt b c = true → tuple_lt a c = true.
Proof.
  unfold tuple_le. intros Hab Hbc.
  destruct (tuple_lt a b) eqn:Hlt; [by apply tuple_lt_trans with b|].
  apply negb_true_iff in Hab.
  by rewrite (tuple_lt_connex a b Hlt Hab).
Qed.

Lemma tuple_lt_le_trans a b c :
  tuple_lt a b = true → tuple_le b c = true → tuple_lt a c = true.
Proof.
  unfold tuple_le. intros Hab Hbc.
  destruct (tuple_lt b c) eqn:Hlt; [by apply tuple_lt_trans with b|].
  apply negb_true_iff in Hbc.
  by rewrite <- (tuple_lt_connex b c Hlt Hbc).
Qed.

Lemma tuple_le_trans a b c :
  tuple_le a b = true → tuple_le b c = true → tuple_le a c = true.
Proof.
  intros Hab Hbc. unfold tuple_le.
  destruct (tuple_lt c a) eqn:Hca; [|done].
  pose proof (tuple_lt_le_trans _ _ _ Hca Hab) as Hcb.
  unfold tuple_le in Hbc. by rewrite Hcb in Hbc.
Qed.

Lemma tuple_le_antisym a b :
  tuple_le a b = true → tuple_le b a = true → a = b.
Proof.
  unfold tuple_le. intros H1%negb_true_iff H2%negb_true_iff.
  by apply tuple_lt_connex.
Qed.

End TupleOrder.

(** ** [sorted] is a stable sort by key *)

Section Sorting.

Context {A : Type} (key : A → list Z).

Lemma insert_by_Permutation x l : insert_by key x l ≡ₚ x :: l.
Proof.
  induction l as [|y l IH]; simpl; [done|].
  destruct (tuple_lt (key y) (key x)); [|done].
  rewrite IH. apply Permutation_swap.
Qed.

Lemma sorted_Permutation l : sorted key l ≡ₚ l.
Proof.
  induction l as [|x l IH]; simpl; [done|].
  by rewrite insert_by_Permutation, IH.
Qed.

Lemma insert_by_StronglySorted x l :
  StronglySorted (key_le key) l → StronglySorted (key_le key) (insert_by key x l).
Proof.
  induction 1 as [|y l Hl IH Hy]; simpl.
  - repeat constructor.
  - destruct (tuple_lt (key y) (key x)) eqn:Hlt.
    + constructor; [done|].
      rewrite insert_by_Permutation. constructor; [|done].
      by apply tuple_lt_le.
    + assert (key_le key x y) as Hxy by (unfold key_le, tuple_le; by rewrite Hlt).
      constructor; [by constructor|].
      constructor; [done|].
      eapply Forall_impl; [exact Hy|].
      intros z Hz. by apply tuple_le_trans with (key y).
Qed.

Lemma sorted_StronglySorted l : StronglySorted (key_le key) (sorted key l).
Proof.
  induction l; simpl; [constructor|by apply insert_by_StronglySorted].
Qed.

(** Stability: the entries that share a key keep their order. *)
Lemma insert_by_stable k x l :
  List.filter (λ a, bool_decide (key a = k)) (insert_by key x l)
  = List.filter (λ a, bool_decide (key a = k)) (x :: l).
Proof.
  induction l as [|y l IH]; [done|].
  cbn [insert_by]. destruct (tuple_lt (key y) (key x)) eqn:Hlt; [|done].
  cbn [List.filter] in *. rewrite IH.
  repeat case_bool_decide; try done.
  match goal with
  | Hx : key x = k, Hy : key y = k |- _ =>
      by rewrite Hx, Hy, tuple_lt_irrefl in Hlt
  end.
Qed.

Lemma sorted_stable k l :
  List.filter (λ a, bool_decide (key a = k)) (sorted key l)
  = List.filter (λ a, bool_decide (key a = k)) l.
Proof.
  induction l as [|x l IH]; [done|].
  cbn [sorted]. rewrite insert_by_stable. cbn [List.filter]. by rewrite IH.
Qed.

End Sorting.

(** ** Time-keys *)

Section TimeKeys.

(** A time-key is the sentinel or the five leading components of a date. *)
Lemma process_entry_time_shape x :
  (published_parsed x = None ∧ updated_parsed x = None
   ∧ process_entry_time x = [0])
  ∨ ∃ t, (published_parsed x = Some t
          ∨ published_parsed x = None ∧ updated_parsed x = Some t)
         ∧ process_entry_time x
           = [tm_year t; tm_mon t; tm_mday t; tm_hour t; tm_min t].
Proof.
  unfold process_entry_time.
  destruct (published_parsed x) as [t|]; [right; exists t; auto|].
  destruct (updated_parsed x) as [t|]; [right; exists t; auto|].
  by left.
Qed.

(** A stored time-key is read back as it is. *)
Lemma effective_last_time_key x :
  effective_last (Some (process_entry_time x)) = process_entry_time x.
Proof.
  destruct (process_entry_time_shape x) as [(_ & _ & ->)|(t & _ & ->)]; done.
Qed.

Lemma effective_last_never_seen : effective_last None = [0].
Proof. done. Qed.

(** The sentinel is below a 5-tuple exactly when the year is not negative. *)
Lemma sentinel_lt_iff y mo d h mi :
  tuple_lt [0] [y; mo; d; h; mi] = true ↔ 0 ≤ y.
Proof.
  cbn [tuple_lt]. destruct (Z.eqb_spec 0 y) as [<-|Hy]; [done|].
  rewrite Z.ltb_lt. lia.
Qed.

(** The sentinel is not above any cursor of the data model. *)
Lemma sentinel_not_gt_cursor last :
  cursor_ok last = true → tuple_gt [0] (effective_last last) = false.
Proof.
  rewrite tuple_gt_lt. destruct last as [[|y l]|]; try done.
  cbn [cursor_ok effective_last take tuple_lt].
  intros Hy%Z.leb_le.
  destruct (Z.eqb_spec y 0) as [->|Hne]; [by destruct l|].
  apply Z.ltb_ge; lia.
Qed.

End TimeKeys.

(** ** The value returned and the maximum time-key *)

Section LastSent.

Lemma last_sent_cons e es :
  last_sent (e :: es)
  = match es with
    | [] => Some (process_entry_time e)
    | _ :: _ => last_sent es
    end.
Proof. unfold last_sent. by destruct es. Qed.

Lemma max_time_key_None es : max_time_key es = None ↔ es = [].
Proof. by destruct es. Qed.

(** [max_time_key] is the key of one of the entries ... *)
Lemma max_time_key_attained es k :
  max_time_key es = Some k → ∃ e, e ∈ es ∧ process_entry_time e = k.
Proof.
  revert k; induction es as [|e es IH]; intros k; simpl; [done|].
  intros [= <-]. destruct (max_time_key es) as [k'|] eqn:Hk'.
  - unfold tuple_max. destruct (tuple_lt _ _).
    + destruct (IH _ eq_refl) as (e' & ? & ?). exists e'. by rewrite elem_of_cons; auto.
    + exists e. by rewrite elem_of_cons; auto.
  - exists e. by rewrite elem_of_cons; auto.
Qed.

(** ... and no entry has a larger one. *)
Lemma max_time_key_upper es k e :
  max_time_key es = Some k → e ∈ es →
  tuple_le (process_entry_time e) k = true.
Proof.
  revert k; induction es as [|e' es IH]; intros k; simpl;
    [by intros _ ?%elem_of_nil|].
  intros [= <-] [->|He]%elem_of_cons.
  - destruct (max_time_key es) as [k'|]; [|apply tuple_le_refl].
    unfold tuple_max. destruct (tuple_lt _ _) eqn:Hlt;
      [by apply tuple_lt_le|apply tuple_le_refl].
  - destruct (max_time_key es) as [k'|] eqn:Hk';
      [|by apply max_time_key_None in Hk'; subst; apply elem_of_nil in He].
    specialize (IH _ eq_refl He).
    unfold tuple_max. destruct (tuple_lt _ k') eqn:Hlt; [done|].
    apply tuple_le_trans with k'; [done|].
    unfold tuple_le. by rewrite Hlt.
Qed.

(** After sorting, the last entry carries the maximum. *)
Lemma last_sent_sorted es :
  StronglySorted (key_le process_entry_time) es →
  last_sent es = max_time_key es.
Proof.
  induction 1 as [|e es Hes IH He]; [done|].
  rewrite last_sent_cons. simpl. destruct es as [|e' es]; [done|].
  rewrite IH. destruct (max_time_key (e' :: es)) as [k|] eqn:Hk; [|done].
  f_equal. unfold tuple_max.
  destruct (tuple_lt (process_entry_time e) k) eqn:Hlt; [done|].
  destruct (max_time_key_attained _ _ Hk) as (e'' & Hin & <-).
  apply tuple_le_antisym; [unfold tuple_le; by rewrite Hlt|].
  rewrite Forall_forall in He. by apply He.
Qed.

End LastSent.

(** ** The normal branch of the selection *)

Section NormalMode.

Implicit Types (response : FeedParserDict) (feed_settings : FeedSettings).

Lemma elem_of_newer_matching rule cursor es e :
  e ∈ newer_matching rule cursor es
  ↔ e ∈ es ∧ tuple_gt (process_entry_time e) cursor = true
    ∧ meets_rule rule e = true.
Proof.
  unfold newer_matching.
  rewrite !list_elem_of_In, filter_In, andb_true_iff. done.
Qed.

Lemma newer_matching_nil rule cursor es :
  (∀ e, e ∈ es → tuple_gt (process_entry_time e) cursor = true →
        meets_rule rule e = true → False) →
  newer_matching rule cursor es = [].
Proof.
  intros H. destruct (newer_matching rule cursor es) as [|e l] eqn:Hl; [done|].
  assert (e ∈ newer_matching rule cursor es) as He
    by (rewrite Hl; apply elem_of_cons; auto).
  apply elem_of_newer_matching in He as (? & ? & ?). exfalso; eauto.
Qed.

(** What a poll without [force] delivers and stores. *)
Lemma poll_normal response feed_settings :
  let sel := sorted process_entry_time
               (newer_matching (match_req feed_settings)
                  (effective_last (last feed_settings)) (entries response)) in
  poll response feed_settings false
  = (sel, {| last := from_option Some (last feed_settings) (max_time_key sel);
             match_req := match_req feed_settings |}).
Proof.
  intros sel. unfold poll, format_and_send, to_send. simpl. fold sel.
  rewrite (last_sent_sorted sel) by apply sorted_StronglySorted.
  unfold new_cursor. by destruct (max_time_key sel).
Qed.

Lemma elem_of_poll_normal response feed_settings e :
  e ∈ (poll response feed_settings false).1
  ↔ e ∈ entries response
    ∧ tuple_gt (process_entry_time e) (effective_last (last feed_settings))
      = true
    ∧ meets_rule (match_req feed_settings) e = true.
Proof.
  rewrite poll_normal. simpl.
  by rewrite sorted_Permutation, elem_of_newer_matching.
Qed.

(** An undated entry is delivered only from a cursor below the sentinel,
    which no delivery ever stores. *)
Lemma undated_entry_selected_iff response feed_settings e :
  process_entry_time e = [0] →
  e ∈ (poll response feed_settings false).1
  ↔ e ∈ entries response
    ∧ tuple_lt (effective_last (last feed_settings)) [0] = true
    ∧ meets_rule (match_req feed_settings) e = true.
Proof.
  intros Hkey. by rewrite elem_of_poll_normal, Hkey, tuple_gt_lt.
Qed.

End NormalMode.

(** * The claims about time-keys and the normal selection *)

(** On entries whose dates were read: without [force], the selection is
    made of exactly the entries of the document whose time-key is strictly
    greater than the cursor and which meet the match rule (as a
    rearrangement of that sub-list, and so with the same members), and it is
    in ascending order of time-key. *)
Theorem normal_selection_exact (response : FeedParserDict)
    (feed_settings : FeedSettings) :
  let cursor := effective_last (last feed_settings) in
  let rule := match_req feed_settings in
  ∃ sel,
    to_send response feed_settings false = Some sel
    ∧ sel ≡ₚ List.filter
               (λ e, tuple_gt (process_entry_time e) cursor && meets_rule rule e)
               (entries response)
    ∧ (∀ e, e ∈ sel
            ↔ e ∈ entries response
              ∧ tuple_gt (process_entry_time e) cursor = true
              ∧ meets_rule rule e = true)
    ∧ StronglySorted (key_le process_entry_time) sel.
Proof.
  intros cursor rule. eexists. split; [reflexivity|].
  fold cursor rule. split; [apply sorted_Permutation|].
  split; [|apply sorted_StronglySorted].
  intros e. by rewrite sorted_Permutation, elem_of_newer_matching.
Qed.

(** C2.  Without [force], the cursor after the poll is the maximum time-key
    among the entries delivered, or the cursor before the poll when nothing
    was delivered; and polling the same document again with the cursor
    after the poll delivers nothing. *)
Theorem new_cursor_is_max_and_poll_idempotent (response : FeedParserDict)
    (feed_settings : FeedSettings) :
  let sent := (poll response feed_settings false).1 in
  let after := (poll response feed_settings false).2 in
  last after = from_option Some (last feed_settings) (max_time_key sent)
  ∧ (poll response after false).1 = [].
Proof.
  intros sent after. subst sent after. rewrite (poll_normal response feed_settings).
  cbn [fst snd last]. split; [done|].
  set (sel := sorted _ _).
  rewrite poll_normal. cbn [fst last match_req].
  destruct (max_time_key sel) as [k|] eqn:Hk; cbn [from_option].
  - destruct (max_time_key_attained _ _ Hk) as (e0 & He0 & Hke0).
    rewrite <- Hke0, effective_last_time_key, Hke0.
    rewrite newer_matching_nil; [done|].
    intros e He Hgt Hrule.
    assert (e ∈ sel) as Hsel.
    { unfold sel. rewrite sorted_Permutation, elem_of_newer_matching.
      split_and!; [done| |done].
      unfold sel in He0.
      rewrite sorted_Permutation, elem_of_newer_matching in He0.
      destruct He0 as (_ & Hgt0 & _).
      rewrite tuple_gt_lt in *. rewrite Hke0 in Hgt0.
      by apply tuple_lt_trans with k. }
    pose proof (max_time_key_upper _ _ _ Hk Hsel) as Hle.
    rewrite tuple_gt_lt in Hgt. unfold tuple_le in Hle.
    by rewrite Hgt in Hle.
  - apply max_time_key_None in Hk. by rewrite <- Hk.
Qed.

(** C9.  Without [force], the cursor after the poll is not below the cursor
    before it: it is strictly above when an entry was delivered and it is
    the same when none was. *)
Theorem cursor_never_moves_backward (response : FeedParserDict)
    (feed_settings : FeedSettings) :
  let sent := (poll response feed_settings false).1 in
  let after := (poll response feed_settings false).2 in
  tuple_le (effective_last (last feed_settings)) (effective_last (last after))
  = true
  ∧ match sent with
    | [] => last after = last feed_settings
    | _ :: _ =>
        tuple_lt (effective_last (last feed_settings))
                 (effective_last (last after)) = true
    end.
Proof.
  intros sent after. subst sent after. rewrite (poll_normal response feed_settings).
  cbn [fst snd last]. set (sel := sorted _ _).
  destruct (max_time_key sel) as [k|] eqn:Hk; cbn [from_option].
  - destruct (max_time_key_attained _ _ Hk) as (e0 & He0 & Hke0).
    assert (tuple_lt (effective_last (last feed_settings))
                     (effective_last (Some k)) = true) as Hlt.
    { rewrite <- Hke0, effective_last_time_key.
      unfold sel in He0.
      rewrite sorted_Permutation, elem_of_newer_matching in He0.
      destruct He0 as (_ & Hgt0 & _). by rewrite tuple_gt_lt in Hgt0. }
    split; [by apply tuple_lt_le|].
    destruct sel; [by apply elem_of_nil in He0|done].
  - apply max_time_key_None in Hk. rewrite Hk.
    split; [apply tuple_le_refl|done].
Qed.

(** C3, as the code has it.  Without [force], an entry whose time-key is
    the sentinel is never delivered, whatever the match rule: neither while
    the cursor is still absent or the sentinel itself, nor once a cursor
    has been stored. *)
Theorem undated_entry_never_selected (response : FeedParserDict)
    (feed_settings : FeedSettings) (e : Entry) :
  cursor_ok (last feed_settings) = true →
  process_entry_time e = [0] →
  e ∉ (poll response feed_settings false).1.
Proof.
  intros Hok Hkey (_ & Hgt & _)%elem_of_poll_normal.
  by rewrite Hkey, (sentinel_not_gt_cursor _ Hok) in Hgt.
Qed.

(** The scenario of the specification: with the cursor at 0:05 only the
    entry of 0:10 is delivered, and the cursor moves to 0:10. *)
Example scenario_three_entries :
  poll Samples.three_entries (mk_settings (Some [2024; 1; 1; 0; 5]) None) false
  = ([Samples.published_at (Samples.date 2024 1 1 0 10) "third"],
     mk_settings (Some [2024; 1; 1; 0; 10]) None).
Proof. reflexivity. Qed.

(** From a fresh subscription the three entries come oldest first. *)
Example scenario_first_poll :
  poll Samples.three_entries Samples.fresh false
  = ([Samples.published_at (Samples.date 2024 1 1 0 0) "first";
      Samples.published_at (Samples.date 2024 1 1 0 5) "second";
      Samples.published_at (Samples.date 2024 1 1 0 10) "third"],
     mk_settings (Some [2024; 1; 1; 0; 10]) None).
Proof. reflexivity. Qed.

(** C3 at a concrete poll: nothing undated leaves a feed whose cursor is
    the date of an earlier delivery. *)
Lemma undated_entry_never_selected_witness :
  cursor_ok (Some [2024; 1; 1; 0; 5]) = true
  ∧ process_entry_time (Samples.titled "undated") = [0]
  ∧ Samples.titled "undated"
    ∉ (poll (mk_feed [Samples.titled "undated"] false)
            (mk_settings (Some [2024; 1; 1; 0; 5]) None) false).1.
Proof.
  split; [reflexivity|]. split; [reflexivity|].
  apply (undated_entry_never_selected
           (mk_feed [Samples.titled "undated"] false)
           (mk_settings (Some [2024; 1; 1; 0; 5]) None)
           (Samples.titled "undated")); reflexivity.
Defined.

(** C3 as the specification words it fails on the very first poll: the
    undated entry meets the (absent) rule and the cursor has never been set,
    and yet the entry is not delivered. *)
Lemma undated_entry_not_selected_at_first_poll :
  let e := Samples.titled "undated" in
  let response := mk_feed [e] false in
  process_entry_time e = [0]
  ∧ ¬ (e ∈ (poll response Samples.fresh false).1
       ↔ meets_rule (match_req Samples.fresh) e = true
         ∧ last Samples.fresh = None).
Proof.
  split; [reflexivity|].
  intros [_ H]. specialize (H (conj eq_refl eq_refl)).
  vm_compute in H. by apply elem_of_nil in H.
Qed.

(** * Match rules on string-valued fields *)

Section Strings.

Lemma app_String c a b : String c a +:+ b = String c (a +:+ b).
Proof. reflexivity. Qed.

Lemma app_empty b : "" +:+ b = b.
Proof. reflexivity. Qed.

Lemma prefix_spec t s : String.prefix t s = true ↔ ∃ b, s = t +:+ b.
Proof.
  revert s; induction t as [|c t IH]; intros [|c' s]; simpl.
  - split; [by exists ""|done].
  - split; [by exists (String c' s)|done].
  - by split; [|intros [? ?]].
  - destruct (ascii_dec c c') as [->|Hne].
    + rewrite IH. split; intros [b Hb]; exists b.
      * by rewrite app_String, Hb.
      * rewrite app_String in Hb. congruence.
    + split; [done|]. intros [b Hb]. rewrite app_String in Hb. congruence.
Qed.

(** [str_in t s] holds exactly when [t] occurs inside [s]. *)
Lemma str_in_spec t s : str_in t s = true ↔ ∃ a b, s = a +:+ t +:+ b.
Proof.
  split.
  - induction s as [|c s IH]; cbn [str_in];
      rewrite orb_true_iff, prefix_spec.
    + intros [[b Hb]|?]; [|done]. by exists "", b.
    + intros [[b Hb]|(a & b & Hab)%IH]; [by exists "", b|].
      exists (String c a), b. by rewrite app_String, Hab.
  - intros (a & b & ->). induction a as [|c a IH].
    + rewrite app_empty.
      assert (String.prefix t (t +:+ b) = true) as Hp
        by (apply prefix_spec; by exists b).
      destruct (t +:+ b); cbn [str_in]; by rewrite Hp.
    + rewrite app_String. cbn [str_in]. rewrite IH. apply orb_true_r.
Qed.

Lemma has_upper_app a b : has_upper (a +:+ b) = has_upper a || has_upper b.
Proof.
  induction a as [|c a IH]; [done|].
  rewrite app_String. simpl. by rewrite IH, orb_assoc.
Qed.

Lemma casefold_char_not_upper c : is_upper (casefold_char c) = false.
Proof. destruct c as [[] [] [] [] [] [] [] []]; reflexivity. Qed.

(** A case-folded string holds no upper-case letter. *)
Lemma casefold_not_upper s : has_upper (casefold s) = false.
Proof.
  induction s as [|c s IH]; simpl; [done|].
  by rewrite casefold_char_not_upper, IH.
Qed.

Lemma casefold_char_id c : is_upper c = false → casefold_char c = c.
Proof. unfold casefold_char. by intros ->. Qed.

(** [casefold] changes nothing in a string without upper-case letters. *)
Lemma casefold_id s : has_upper s = false → casefold s = s.
Proof.
  induction s as [|c s IH]; simpl; [done|].
  intros [Hc Hs]%orb_false_iff. by rewrite casefold_char_id, IH.
Qed.

Lemma casefold_idemp s : casefold (casefold s) = casefold s.
Proof. apply casefold_id, casefold_not_upper. Qed.


(** The evaluator on a field that holds a string. *)
Lemma meets_rule_string entry field_name term s :
  getattr entry field_name = Some (VStr s) →
  meets_rule (Some (field_name, term)) entry
  = nonempty s && str_in term (casefold s).
Proof.
  intros Hd. unfold meets_rule, nonempty. rewrite Hd. simpl.
  by destruct (String.eqb s "").
Qed.

End Strings.

(** C5, as the code has it.  On an entry whose named field holds a
    non-empty string, the rule [(field, term)] is met exactly when the term,
    as it was given, occurs in the case-folded value; so for a term that is
    its own case-folding, exactly when the case-folded term occurs in the
    case-folded value. *)
Theorem string_rule_matches_in_folded_value (entry : Entry)
    (field_name term s : string) :
  getattr entry field_name = Some (VStr s) →
  s ≠ "" →
  (meets_rule (Some (field_name, term)) entry = true
   ↔ ∃ a b, casefold s = a +:+ term +:+ b)
  ∧ (casefold term = term →
     (meets_rule (Some (field_name, term)) entry = true
      ↔ ∃ a b, casefold s = a +:+ casefold term +:+ b)).
Proof.
  intros Hd Hs.
  assert (meets_rule (Some (field_name, term)) entry = true
          ↔ ∃ a b, casefold s = a +:+ term +:+ b) as H.
  { rewrite (meets_rule_string _ _ _ _ Hd), <- str_in_spec.
    unfold nonempty. destruct (String.eqb_spec s ""); [done|]. done. }
  split; [done|]. by intros ->.
Qed.

(** C5 on the two titles of the specification: the rule [(title, "foo")]
    is met by the title [FooBar]. *)
Lemma string_rule_matches_in_folded_value_witness :
  getattr (Samples.titled "FooBar") "title" = Some (VStr "FooBar")
  ∧ "FooBar" ≠ ""
  ∧ meets_rule (Some ("title", "foo")) (Samples.titled "FooBar") = true.
Proof.
  split; [reflexivity|]. split; [discriminate|].
  apply (proj1 (string_rule_matches_in_folded_value
                  (Samples.titled "FooBar") "title" "foo" "FooBar"
                  eq_refl ltac:(discriminate))).
  by exists "", "bar".
Defined.

Example rule_foo_meets_FooBar :
  meets_rule (Some ("title", "foo")) (Samples.titled "FooBar") = true.
Proof. reflexivity. Qed.

Example rule_foo_misses_bar :
  meets_rule (Some ("title", "foo")) (Samples.titled "bar") = false.
Proof. reflexivity. Qed.

(** C5 as the specification words it fails for a term with an upper-case
    letter, which the code does not fold, and for an empty string, which the
    code takes for a missing field. *)
Lemma folded_term_rule_fails :
  ¬ (meets_rule (Some ("title", "Foo")) (Samples.titled "FooBar") = true
     ↔ ∃ a b, casefold "FooBar" = a +:+ casefold "Foo" +:+ b)
  ∧ ¬ (meets_rule (Some ("title", "")) (Samples.titled "") = true
       ↔ ∃ a b, casefold "" = a +:+ casefold "" +:+ b).
Proof.
  split.
  - intros [_ H]. by specialize (H (ex_intro _ "" (ex_intro _ "bar" eq_refl))).
  - intros [_ H]. by specialize (H (ex_intro _ "" (ex_intro _ "" eq_refl))).
Qed.



(** * The forced branch of the selection *)

Section ForcedMode.

Implicit Types (response : FeedParserDict) (feed_settings : FeedSettings).

(** An entry that meets a rule has a field, and so is not a false value. *)
Lemma meets_rule_entry_truthy rule e :
  meets_rule (Some rule) e = true → entry_truthy e = true.
Proof.
  destruct rule as [field_name term]. unfold meets_rule, getattr, entry_truthy.
  destruct (published_parsed e), (updated_parsed e); try done.
  repeat case_decide; simpl; try done.
  destruct (fields e !! field_name) eqn:Hd; [|done].
  intros _. apply negb_true_iff, bool_decide_eq_false.
  intros Hempty. by rewrite Hempty, lookup_empty in Hd.
Qed.

(** With a rule, [force] sends the first entry that meets it, wherever
    the cursor is, and nothing when no entry meets it. *)
Lemma forced_selection_with_rule response feed_settings rule :
  match_req feed_settings = Some rule →
  to_send response feed_settings true
  = (λ e, [e]) <$> List.find (meets_rule (Some rule)) (entries response).
Proof.
  intros Hrule. unfold to_send. rewrite Hrule. simpl.
  destruct (List.find _ _) as [e|] eqn:Hfind; [|done].
  apply find_some in Hfind as [_ Hmeets].
  by rewrite (meets_rule_entry_truthy _ _ Hmeets).
Qed.

(** Without a rule, [force] sends the first entry of the document when
    that entry has a field. *)
Lemma forced_selection_without_rule response feed_settings e es :
  match_req feed_settings = None →
  entries response = e :: es →
  to_send response feed_settings true
  = if entry_truthy e then Some [e] else None.
Proof. intros Hrule Hes. unfold to_send. by rewrite Hrule, Hes. Qed.

(** [force] never sends more than one entry. *)
Lemma forced_selection_at_most_one response feed_settings :
  (length (default [] (to_send response feed_settings true)) ≤ 1)%nat.
Proof.
  unfold to_send. simpl. destruct (List.find _ _) as [e|]; simpl; [|lia].
  destruct (entry_truthy e); simpl; lia.
Qed.

(** When no entry meets the rule nothing is sent and the cursor stays. *)
Lemma forced_selection_none response feed_settings :
  List.find (meets_rule (match_req feed_settings)) (entries response) = None →
  poll response feed_settings true = ([], feed_settings).
Proof.
  intros Hfind. unfold poll, format_and_send, to_send. rewrite Hfind. simpl.
  by destruct feed_settings.
Qed.

End ForcedMode.

(** C6 at the document whose first entry is the empty mapping.  No rule is
    set, so the first entry is the one to send; the code takes the empty
    mapping for ``nothing found'' and returns without sending anything. *)
Theorem forced_selection_skips_blank_first_entry :
  let response := mk_feed [Samples.blank; Samples.titled "news"] false in
  List.find (meets_rule (match_req Samples.fresh)) (entries response)
  = Some Samples.blank
  ∧ to_send response Samples.fresh true = None
  ∧ format_and_send response Samples.fresh true = None.
Proof. by vm_compute. Qed.

(** * Fetching and discovery *)

(** Splits a statement made of equivalences over the ways a call can end,
    and closes each direction by the equations at hand. *)
Local Ltac by_cases :=
  repeat match goal with
         | |- _ ∧ _ => split
         | |- _ ↔ _ => split
         | |- ∀ _, _ => intro
         | H : _ ∨ _ |- _ => destruct H
         | H : ∃ _, _ |- _ => destruct H
         | H : _ ∧ _ |- _ => destruct H
         end;
  simplify_eq; try done; try congruence; naive_solver.

Section Fetching.

Variable session_get : string → response.
Variable parse : bytes → FeedParserDict.
Variable urlparse : string → string * option string.

(** A loop over the [link] tags only ever adds the [href] of a tag. *)
Lemma add_link_subseteq (acc : gset string) (f : Tag) :
  acc ⊆ add_link acc f.
Proof.
  unfold add_link. repeat case_match; set_solver.
Qed.

(** With fewer than two [link] tags no [href] of a [link] tag is looked
    at: the candidates all come from the anchors. *)
Lemma possible_feeds_few_links site html :
  (length (links_alternate html) ≤ 1)%nat →
  possible_feeds urlparse site html
  = possible_feeds urlparse site (mk_html [] (a_tags html)).
Proof.
  intros Hlen. unfold possible_feeds. simpl.
  by replace (1 <? length (links_alternate html))%nat with false
    by (symmetry; apply Nat.ltb_ge; lia).
Qed.

Lemma possible_feeds_no_anchor site html :
  (length (links_alternate html) ≤ 1)%nat →
  a_tags html = [] →
  possible_feeds urlparse site html = ∅.
Proof.
  intros Hlen Ha. rewrite possible_feeds_few_links by done.
  unfold possible_feeds. rewrite Ha. simpl. by repeat case_match.
Qed.

End Fetching.

(** C7.  [fetch_feed] returns [None] exactly when the request fails with a
    client error, a timeout or any other exception, or when the body parses
    with [bozo] set; it returns a document exactly when the body was read
    and parsed with [bozo] clear, and the document is that parse.  Nothing
    but a base exception such as a cancellation gets through. *)
Theorem fetch_feed_document_only_on_clean_parse
    (session_get : string → response) (parse : bytes → FeedParserDict)
    (url : string) :
  (fetch_feed session_get parse url = Returns None
   ↔ session_get url = ClientError
     ∨ session_get url = TimeoutError
     ∨ (∃ type, session_get url = OtherException type)
     ∨ (∃ data, session_get url = Read data ∧ bozo (parse data) = true))
  ∧ (∀ doc, fetch_feed session_get parse url = Returns (Some doc)
            ↔ ∃ data, session_get url = Read data
                      ∧ doc = parse data ∧ bozo doc = false)
  ∧ (fetch_feed session_get parse url = Raises ↔ session_get url = Cancelled).
Proof.
  unfold fetch_feed.
  destruct (session_get url) as [data| | |type|] eqn:Hget;
    [destruct (bozo (parse data)) eqn:Hbozo|..]; by_cases.
Qed.

(** C8 at the page of the scenario.  The page has one [link] tag with the
    type [application/rss+xml] and the [href] [/feed.xml], it is served from
    [https://example.com/], and [https://example.com/feed.xml] can be
    fetched; discovery returns no URL at all. *)
Theorem find_feeds_misses_single_link :
  let find_feeds :=
    find_feeds Samples.example_com Samples.clean_parse
      (λ _, Samples.page_one_link) Samples.urlparse_example_com in
  fetch_feed Samples.example_com Samples.clean_parse
    "https://example.com/feed.xml"
  = Returns (Some (Samples.clean_parse []))
  ∧ find_feeds "https://example.com/" = Returns [].
Proof. split; by vm_compute. Qed.

(** With the tag written twice the loop over the [link] tags runs, and the
    candidate is the [href] as it stands, which cannot be fetched. *)
Example find_feeds_two_links :
  possible_feeds Samples.urlparse_example_com "https://example.com/"
    Samples.page_two_links = {[ "/feed.xml" ]}
  ∧ find_feeds Samples.example_com Samples.clean_parse
      (λ _, Samples.page_two_links) Samples.urlparse_example_com
      "https://example.com/"
    = Returns [].
Proof. split; by vm_compute. Qed.

(** An anchor with the same [href] is resolved against the scheme and the
    host of the page, and found. *)
Example find_feeds_one_anchor :
  find_feeds Samples.example_com Samples.clean_parse
    (λ _, Samples.page_one_anchor) Samples.urlparse_example_com
    "https://example.com/"
  = Returns ["https://example.com/feed.xml"].
Proof. by vm_compute. Qed.

(** * Further properties of the selection *)

Section SortingFilter.

Context {A : Type} (key : A → list Z).

Lemma insert_by_head x l :
  (∀ z, z ∈ l → tuple_lt (key z) (key x) = false) →
  insert_by key x l = x :: l.
Proof.
  destruct l as [|y l]; [done|]. intros H. simpl.
  by rewrite H by (apply elem_of_cons; auto).
Qed.

(** Inserting into a sorted list and filtering can be done in either order. *)
Lemma filter_insert_by (P : A → bool) x l :
  StronglySorted (key_le key) l →
  List.filter P (insert_by key x l)
  = if P x then insert_by key x (List.filter P l) else List.filter P l.
Proof.
  induction 1 as [|y l Hl IH Hy]; [by simpl; destruct (P x)|].
  cbn [insert_by]. destruct (tuple_lt (key y) (key x)) eqn:Hlt.
  - cbn [List.filter]. rewrite IH.
    destruct (P x), (P y); try done. cbn [insert_by]. by rewrite Hlt.
  - cbn [List.filter]. destruct (P x); [|done].
    symmetry. apply insert_by_head. intros z Hz.
    assert (z ∈ y :: l) as [->|Hzl]%elem_of_cons.
    { assert (z ∈ y :: List.filter P l) as [->|Hz']%elem_of_cons
        by (destruct (P y); [done|by apply elem_of_cons; right]).
      - apply elem_of_cons. by left.
      - apply elem_of_cons. right.
        apply list_elem_of_In in Hz'. apply filter_In in Hz' as [Hz' _].
        by apply list_elem_of_In. }
    + done.
    + rewrite Forall_forall in Hy. specialize (Hy z Hzl).
      destruct (tuple_lt (key z) (key x)) eqn:Hzx; [|done].
      pose proof (tuple_le_lt_trans _ _ _ Hy Hzx) as Hyx. congruence.
Qed.

Lemma filter_sorted (P : A → bool) l :
  List.filter P (sorted key l) = sorted key (List.filter P l).
Proof.
  induction l as [|x l IH]; [done|].
  cbn [sorted List.filter].
  rewrite filter_insert_by by apply sorted_StronglySorted.
  rewrite IH. by destruct (P x).
Qed.

Lemma filter_Permutation_bool (P : A → bool) l1 l2 :
  l1 ≡ₚ l2 → List.filter P l1 ≡ₚ List.filter P l2.
Proof.
  induction 1 as [|x l1 l2 _ IH|x y l|l1 l2 l3 _ IH1 _ IH2]; simpl.
  - done.
  - destruct (P x); by rewrite IH.
  - destruct (P x), (P y); try done. apply Permutation_swap.
  - by rewrite IH1.
Qed.

Lemma filter_filter_bool (P Q : A → bool) l :
  List.filter P (List.filter Q l) = List.filter (λ a, Q a && P a) l.
Proof.
  induction l as [|x l IH]; [done|]. simpl.
  destruct (Q x); simpl; [|done]. destruct (P x); by rewrite IH.
Qed.

Lemma filter_ext_bool (P Q : A → bool) l :
  (∀ a, a ∈ l → P a = Q a) → List.filter P l = List.filter Q l.
Proof.
  induction l as [|x l IH]; [done|]. intros H. simpl.
  rewrite (H x) by (apply elem_of_cons; auto).
  rewrite IH; [done|]. intros a Ha. apply H, elem_of_cons. auto.
Qed.

(** Two sorted lists with the same keys, counted, have the same sequence of
    keys. *)
Lemma sorted_keys_unique l1 l2 :
  l1 ≡ₚ l2 → key <$> sorted key l1 = key <$> sorted key l2.
Proof.
  intros Hperm.
  assert (AntiSymm (=) (λ a b : list Z, tuple_le a b = true)) as Hanti
    by (intros a b; apply tuple_le_antisym).
  apply (StronglySorted_unique (λ a b : list Z, tuple_le a b = true)).
  - apply (StronglySorted_fmap key (key_le key)); [done|].
    apply sorted_StronglySorted.
  - apply (StronglySorted_fmap key (key_le key)); [done|].
    apply sorted_StronglySorted.
  - by rewrite !sorted_Permutation, Hperm.
Qed.

End SortingFilter.

Section SelectionFacts.

Implicit Types (response : FeedParserDict) (feed_settings : FeedSettings).

Lemma filter_none {A} (l : list A) : List.filter (λ _, false) l = [].
Proof. by induction l. Qed.

(** [next(filter(f, l), None)] finds the first element on which [f] holds. *)
Lemma find_Some_split {A} (f : A → bool) l x :
  List.find f l = Some x
  ↔ ∃ before after, l = before ++ x :: after ∧ f x = true
                    ∧ Forall (λ b, f b = false) before.
Proof.
  induction l as [|y l IH]; simpl.
  - split; [done|]. by intros ([|??] & ? & ? & _).
  - destruct (f y) eqn:Hy.
    + split.
      * intros [= ->]. by exists [], l.
      * intros ([|b before] & after & Hl & Hx & Hb); simplify_eq/=; [done|].
        apply Forall_cons in Hb as [Hb _]. congruence.
    + rewrite IH. split.
      * intros (before & after & -> & Hx & Hb).
        exists (y :: before), after. split_and!; [done..|by constructor].
      * intros ([|b before] & after & Hl & Hx & Hb); simplify_eq/=;
          [congruence|].
        apply Forall_cons in Hb as [_ Hb]. by exists before, after.
Qed.

Lemma find_None_Forall {A} (f : A → bool) l :
  List.find f l = None ↔ Forall (λ b, f b = false) l.
Proof.
  induction l as [|y l IH]; simpl; [by split; [constructor|]|].
  destruct (f y) eqn:Hy.
  - split; [done|]. intros [? _]%Forall_cons. congruence.
  - rewrite IH. split; [by constructor|by intros [_ ?]%Forall_cons].
Qed.

End SelectionFacts.

(** X2.  Without [force], the order in which the document lists its
    entries does not change what is delivered nor the sequence of time-keys
    in which it is delivered. *)
Theorem delivery_independent_of_document_order (response response' : FeedParserDict)
    (feed_settings : FeedSettings) :
  entries response ≡ₚ entries response' →
  ∃ sel sel',
    to_send response feed_settings false = Some sel
    ∧ to_send response' feed_settings false = Some sel'
    ∧ sel ≡ₚ sel'
    ∧ process_entry_time <$> sel = process_entry_time <$> sel'.
Proof.
  intros Hperm. do 2 eexists. split; [reflexivity|]. split; [reflexivity|].
  assert (newer_matching (match_req feed_settings)
            (effective_last (last feed_settings)) (entries response)
          ≡ₚ newer_matching (match_req feed_settings)
               (effective_last (last feed_settings)) (entries response'))
    as Hnewer by (by apply filter_Permutation_bool).
  split; [by rewrite !sorted_Permutation|by apply sorted_keys_unique].
Qed.

(** X3.  Without [force] and under the same rule, a poll from a later
    cursor delivers what a poll from an earlier cursor delivers, less the
    entries that are not above the later cursor, in the same order. *)
Theorem later_cursor_selects_tail (response : FeedParserDict)
    (feed_settings feed_settings' : FeedSettings) :
  match_req feed_settings = match_req feed_settings' →
  tuple_le (effective_last (last feed_settings))
           (effective_last (last feed_settings')) = true →
  to_send response feed_settings' false
  = List.filter
      (λ e, tuple_gt (process_entry_time e)
                     (effective_last (last feed_settings')))
    <$> to_send response feed_settings false.
Proof.
  intros Hrule Hle. unfold to_send. simpl. f_equal.
  rewrite filter_sorted. f_equal. unfold newer_matching.
  rewrite filter_filter_bool, <- Hrule. apply filter_ext_bool. intros a _.
  destruct (tuple_gt _ (effective_last (last feed_settings'))) eqn:Hgt;
    [|by rewrite andb_false_r].
  rewrite tuple_gt_lt in Hgt. rewrite andb_true_r, tuple_gt_lt.
  by rewrite (tuple_le_lt_trans _ _ _ Hle Hgt).
Qed.

(** X4.  With or without [force], whatever is sent is an entry of the
    document and meets the match rule of the feed. *)
Theorem sent_entries_meet_rule (response : FeedParserDict)
    (feed_settings : FeedSettings) (force : bool) (sel : list Entry)
    (e : Entry) :
  to_send response feed_settings force = Some sel →
  e ∈ sel →
  e ∈ entries response ∧ meets_rule (match_req feed_settings) e = true.
Proof.
  unfold to_send. destruct force.
  - destruct (List.find _ _) as [e'|] eqn:Hfind; [|done].
    destruct (entry_truthy e'); [|done].
    intros [= <-] ->%list_elem_of_singleton.
    apply find_some in Hfind as [Hin Hmeets].
    by rewrite list_elem_of_In.
  - intros [= <-]. rewrite sorted_Permutation, elem_of_newer_matching.
    by intros (? & _ & ?).
Qed.

(** X5.  With or without [force], a document that lists no entry twice has
    no entry sent twice. *)
Theorem no_entry_sent_twice (response : FeedParserDict)
    (feed_settings : FeedSettings) (force : bool) (sel : list Entry) :
  NoDup (entries response) →
  to_send response feed_settings force = Some sel →
  NoDup sel.
Proof.
  intros Hnodup. unfold to_send. destruct force.
  - destruct (List.find _ _) as [e'|]; [|done].
    destruct (entry_truthy e'); [|done]. intros [= <-]. apply NoDup_singleton.
  - intros [= <-]. rewrite sorted_Permutation. unfold newer_matching.
    apply NoDup_ListNoDup, List.NoDup_filter, NoDup_ListNoDup, Hnodup.
Qed.

(** X7.  Without [force], an entry whose published time, cut to the minute,
    is not above the cursor is not delivered: neither its seconds nor a
    later updated time make it new. *)
Theorem published_not_after_cursor_not_sent (response : FeedParserDict)
    (feed_settings : FeedSettings) (e : Entry) (t : struct_time)
    (sel : list Entry) :
  published_parsed e = Some t →
  tuple_le [tm_year t; tm_mon t; tm_mday t; tm_hour t; tm_min t]
           (effective_last (last feed_settings)) = true →
  to_send response feed_settings false = Some sel →
  e ∉ sel.
Proof.
  intros Hp Hle [= <-].
  rewrite sorted_Permutation, elem_of_newer_matching.
  intros (_ & Hgt & _). unfold process_entry_time in Hgt.
  rewrite Hp, tuple_gt_lt in Hgt. unfold tuple_le in Hle.
  change (take 5 (tuple t))
    with [tm_year t; tm_mon t; tm_mday t; tm_hour t; tm_min t] in Hgt.
  by rewrite Hgt in Hle.
Qed.

(** X8.  With [force] and a match rule, the entry sent is the first entry
    of the document that meets the rule, wherever the cursor stands, and
    nothing is sent exactly when no entry meets the rule. *)
Theorem forced_selection_first_match (response : FeedParserDict)
    (feed_settings : FeedSettings) (rule : string * string) :
  match_req feed_settings = Some rule →
  (∀ e, to_send response feed_settings true = Some [e]
        ↔ ∃ before after,
            entries response = before ++ e :: after
            ∧ meets_rule (Some rule) e = true
            ∧ Forall (λ b, meets_rule (Some rule) b = false) before)
  ∧ (to_send response feed_settings true = None
     ↔ Forall (λ b, meets_rule (Some rule) b = false) (entries response)).
Proof.
  intros Hrule. rewrite (forced_selection_with_rule _ _ _ Hrule). split.
  - intros e. rewrite <- find_Some_split.
    destruct (List.find _ _); simpl; naive_solver.
  - rewrite <- find_None_Forall. destruct (List.find _ _); simpl; naive_solver.
Qed.

(** X2 at the document of the scenario and the same document oldest
    first. *)
Lemma delivery_independent_of_document_order_witness :
  entries Samples.three_entries
  ≡ₚ entries (mk_feed (rev (entries Samples.three_entries)) false)
  ∧ ∃ sel sel',
      to_send Samples.three_entries Samples.fresh false = Some sel
      ∧ to_send (mk_feed (rev (entries Samples.three_entries)) false)
          Samples.fresh false = Some sel'
      ∧ sel ≡ₚ sel'
      ∧ process_entry_time <$> sel = process_entry_time <$> sel'.
Proof.
  assert (entries Samples.three_entries
          ≡ₚ entries (mk_feed (rev (entries Samples.three_entries)) false))
    as Hperm by apply Permutation_rev.
  split; [exact Hperm|].
  exact (delivery_independent_of_document_order Samples.three_entries
           (mk_feed (rev (entries Samples.three_entries)) false)
           Samples.fresh Hperm).
Defined.

(** X3 at the document of the scenario, from a fresh feed and from the
    cursor 0:05. *)
Lemma later_cursor_selects_tail_witness :
  match_req Samples.fresh = match_req (mk_settings (Some [2024; 1; 1; 0; 5]) None)
  ∧ tuple_le (effective_last (last Samples.fresh))
             (effective_last (Some [2024; 1; 1; 0; 5])) = true
  ∧ to_send Samples.three_entries
      (mk_settings (Some [2024; 1; 1; 0; 5]) None) false
    = List.filter (λ e, tuple_gt (process_entry_time e) [2024; 1; 1; 0; 5])
      <$> to_send Samples.three_entries Samples.fresh false.
Proof.
  split; [reflexivity|]. split; [reflexivity|].
  exact (later_cursor_selects_tail Samples.three_entries Samples.fresh
           (mk_settings (Some [2024; 1; 1; 0; 5]) None) eq_refl eq_refl).
Defined.

(** X4 at a forced delivery under the rule [(title, "foo")]. *)
Lemma sent_entries_meet_rule_witness :
  let response :=
    mk_feed [Samples.titled "bar"; Samples.titled "FooBar"] false in
  let feed_settings := mk_settings None (Some ("title", "foo")) in
  to_send response feed_settings true = Some [Samples.titled "FooBar"]
  ∧ Samples.titled "FooBar" ∈ [Samples.titled "FooBar"]
  ∧ Samples.titled "FooBar" ∈ entries response
  ∧ meets_rule (match_req feed_settings) (Samples.titled "FooBar") = true.
Proof.
  intros response feed_settings.
  assert (Samples.titled "FooBar" ∈ [Samples.titled "FooBar"]) as Hin
    by (apply elem_of_cons; by left).
  split; [reflexivity|]. split; [exact Hin|].
  exact (sent_entries_meet_rule response feed_settings true
           [Samples.titled "FooBar"] (Samples.titled "FooBar") eq_refl Hin).
Defined.

(** X5 at the document of the scenario. *)
Lemma no_entry_sent_twice_witness :
  NoDup (entries Samples.three_entries)
  ∧ to_send Samples.three_entries Samples.fresh false
    = Some (rev (entries Samples.three_entries))
  ∧ NoDup (rev (entries Samples.three_entries)).
Proof.
  assert (NoDup (entries Samples.three_entries)) as Hnodup.
  { apply NoDup_ListNoDup. repeat constructor; simpl; intuition discriminate. }
  split; [exact Hnodup|]. split; [reflexivity|].
  exact (no_entry_sent_twice Samples.three_entries Samples.fresh false
           (rev (entries Samples.three_entries)) Hnodup eq_refl).
Defined.

(** X7 at an entry published at 0:05:59 and updated two months later,
    polled with the cursor at 0:05. *)
Lemma published_not_after_cursor_not_sent_witness :
  let e := mk_entry (Some (mk_struct_time 2024 1 1 0 5 59 0 1 0))
                    (Some (Samples.date 2024 3 1 0 0))
                    {[ "title" := VStr "late" ]} in
  let feed_settings := mk_settings (Some [2024; 1; 1; 0; 5]) None in
  published_parsed e = Some (mk_struct_time 2024 1 1 0 5 59 0 1 0)
  ∧ tuple_le [2024; 1; 1; 0; 5] (effective_last (last feed_settings)) = true
  ∧ to_send (mk_feed [e] false) feed_settings false = Some []
  ∧ e ∉ ([] : list Entry).
Proof.
  intros e feed_settings.
  split; [reflexivity|]. split; [reflexivity|]. split; [reflexivity|].
  exact (published_not_after_cursor_not_sent (mk_feed [e] false) feed_settings
           e (mk_struct_time 2024 1 1 0 5 59 0 1 0) [] eq_refl eq_refl eq_refl).
Defined.

(** X8 at three titles, of which the second is the first to hold [foo]. *)
Lemma forced_selection_first_match_witness :
  let response :=
    mk_feed [Samples.titled "bar"; Samples.titled "FooBar";
             Samples.titled "food"] false in
  let feed_settings :=
    mk_settings (Some [2030; 1; 1; 0; 0]) (Some ("title", "foo")) in
  match_req feed_settings = Some ("title", "foo")
  ∧ to_send response feed_settings true = Some [Samples.titled "FooBar"].
Proof.
  intros response feed_settings. split; [reflexivity|].
  apply (proj1 (forced_selection_first_match response feed_settings
                  ("title", "foo") eq_refl) (Samples.titled "FooBar")).
  exists [Samples.titled "bar"], [Samples.titled "food"].
  split; [reflexivity|]. split; [reflexivity|].
  constructor; [reflexivity|constructor].
Defined.

(** * Further properties of the match rules *)

Section MoreStrings.

Lemma str_app_assoc a b c : (a +:+ b) +:+ c = a +:+ b +:+ c.
Proof.
  induction a as [|x a IH]; [done|]. by rewrite !app_String, IH.
Qed.

Lemma casefold_empty_iff s : casefold s = "" ↔ s = "".
Proof. by destruct s. Qed.

Lemma nonempty_casefold s : nonempty (casefold s) = nonempty s.
Proof. by destruct s. Qed.

(** What occurs in something that occurs in [s] occurs in [s]. *)
Lemma str_in_trans t' t s :
  str_in t' t = true → str_in t s = true → str_in t' s = true.
Proof.
  intros (a & b & ->)%str_in_spec (c & d & ->)%str_in_spec.
  apply str_in_spec. exists (c +:+ a), (b +:+ d).
  by rewrite !str_app_assoc.
Qed.

End MoreStrings.

(** X9.  On a field that holds a string, only the case-folding of the
    value counts: two entries whose values differ in case alone get the same
    verdict from every rule on that field. *)
Theorem string_rule_ignores_case_of_value (e e' : Entry)
    (field_name term s s' : string) :
  getattr e field_name = Some (VStr s) →
  getattr e' field_name = Some (VStr s') →
  casefold s = casefold s' →
  meets_rule (Some (field_name, term)) e
  = meets_rule (Some (field_name, term)) e'.
Proof.
  intros Hs Hs' Hfold.
  rewrite (meets_rule_string _ _ _ _ Hs), (meets_rule_string _ _ _ _ Hs').
  by rewrite <- (nonempty_casefold s), <- (nonempty_casefold s'), Hfold.
Qed.

(** X9 at the titles [FooBar] and [FOOBAR]. *)
Lemma string_rule_ignores_case_of_value_witness :
  getattr (Samples.titled "FooBar") "title" = Some (VStr "FooBar")
  ∧ getattr (Samples.titled "FOOBAR") "title" = Some (VStr "FOOBAR")
  ∧ casefold "FooBar" = casefold "FOOBAR"
  ∧ meets_rule (Some ("title", "oba")) (Samples.titled "FooBar")
    = meets_rule (Some ("title", "oba")) (Samples.titled "FOOBAR").
Proof.
  split; [reflexivity|]. split; [reflexivity|]. split; [reflexivity|].
  exact (string_rule_ignores_case_of_value (Samples.titled "FooBar")
           (Samples.titled "FOOBAR") "title" "oba" "FooBar" "FOOBAR"
           eq_refl eq_refl eq_refl).
Defined.

(** X10.  On a field that holds a string, a rule is met by every part of a
    term that meets it: whatever occurs in a term that is met is met as
    well, and so is the empty term. *)
Theorem part_of_met_term_is_met (e : Entry) (field_name term term' s : string) :
  getattr e field_name = Some (VStr s) →
  str_in term' term = true →
  meets_rule (Some (field_name, term)) e = true →
  meets_rule (Some (field_name, term')) e = true
  ∧ meets_rule (Some (field_name, "")) e = true.
Proof.
  intros Hs Hpart. rewrite !(meets_rule_string _ _ _ _ Hs).
  intros [Hne Hin]%andb_true_iff. rewrite Hne. simpl. split.
  - by apply str_in_trans with term.
  - apply str_in_spec. by exists "", (casefold s).
Qed.

(** X10 at the title [FooBar] and the terms [oba] and [ob]. *)
Lemma part_of_met_term_is_met_witness :
  getattr (Samples.titled "FooBar") "title" = Some (VStr "FooBar")
  ∧ str_in "ob" "oba" = true
  ∧ meets_rule (Some ("title", "oba")) (Samples.titled "FooBar") = true
  ∧ meets_rule (Some ("title", "ob")) (Samples.titled "FooBar") = true
  ∧ meets_rule (Some ("title", "")) (Samples.titled "FooBar") = true.
Proof.
  split; [reflexivity|]. split; [reflexivity|]. split; [reflexivity|].
  exact (part_of_met_term_is_met (Samples.titled "FooBar") "title" "oba" "ob"
           "FooBar" eq_refl eq_refl eq_refl).
Defined.

(** * Further properties of fetching and discovery *)

(** X11.  A call of [fetch_feed] dispatches at most one event, and none
    when the request fails.  When there is an event, it carries version 1,
    the bytes that were read and the [bozo] flag of their parse, and the
    value returned can be told from it: [None] when the flag is set, the
    document the regenerator gives otherwise. *)
Theorem fetch_feed_event_tells_result (session_get : string → response)
    (parse : bytes → FeedParserDict) (url : string) :
  match fetch_feed_dispatches session_get parse url with
  | [] =>
      (∀ data, session_get url ≠ Read data)
      ∧ (fetch_feed session_get parse url = Returns None
         ∨ fetch_feed session_get parse url = Raises)
  | [ev] =>
      listener_version ev = 1
      ∧ session_get url = Read (regenerator_data ev)
      ∧ event_bozo ev = bozo (regenerate parse ev)
      ∧ fetch_feed session_get parse url
        = Returns (if event_bozo ev then None else Some (regenerate parse ev))
  | _ => False
  end.
Proof.
  unfold fetch_feed_dispatches, fetch_feed, regenerate.
  destruct (session_get url) as [data| | |type|]; simpl;
    try (split; [done|auto]).
  split_and!; try done. by destruct (bozo (parse data)).
Qed.

Section Discovery.

Variable session_get : string → response.
Variable parse : bytes → FeedParserDict.
Variable bs4 : bytes → Html.
Variable urlparse : string → string * option string.

Lemma nonempty_true_iff s : nonempty s = true ↔ s ≠ "".
Proof.
  unfold nonempty. destruct (String.eqb_spec s ""); split; try done.
Qed.

Lemma elem_of_add_link acc f u :
  u ∈ add_link acc f ↔ u ∈ acc ∨ link_candidate f u.
Proof.
  unfold add_link, link_candidate.
  destruct (attrs f !! "type") as [t|] eqn:Ht;
    [|split; [auto|]; by intros [?|(? & ? & _)]].
  destruct (nonempty t && (str_in "rss" t || str_in "xml" t)) eqn:Hcond.
  - apply andb_true_iff in Hcond as [_ Hcond].
    destruct (attrs f !! "href") as [href|] eqn:Hhref;
      [|split; [auto|]; by intros [?|(? & _ & _ & ? & _)]].
    destruct (nonempty href) eqn:Hne.
    + apply nonempty_true_iff in Hne.
      rewrite elem_of_union, elem_of_singleton. split.
      * intros [->|?]; [right; by exists t|by left].
      * intros [?|(? & _ & _ & [= ->] & _)]; [by right|by left].
    + assert (href = "") as -> by (by destruct href).
      split; [auto|]. intros [?|(? & _ & _ & [= <-] & ?)]; done.
  - assert (str_in "rss" t || str_in "xml" t = false) as Hno
      by (by destruct t; [|rewrite andb_true_l in Hcond]).
    split; [auto|]. intros [?|(? & [= <-] & ? & _)]; [done|congruence].
Qed.

Lemma elem_of_add_anchor base acc a u :
  u ∈ add_anchor base acc a ↔ u ∈ acc ∨ anchor_candidate base a u.
Proof.
  unfold add_anchor, anchor_candidate.
  destruct (attrs a !! "href") as [href|] eqn:Hhref;
    [|split; [auto|]; by intros [?|(? & ? & _)]].
  destruct (nonempty href && _) eqn:Hcond.
  - apply andb_true_iff in Hcond as [_ Hcond].
    rewrite elem_of_union, elem_of_singleton. split.
    + intros [->|?]; [right; by exists href|by left].
    + intros [?|(? & [= <-] & _ & ->)]; [by right|by left].
  - assert (str_in "xml" href || str_in "rss" href || str_in "feed" href
            = false) as Hno
      by (by destruct href; [|rewrite andb_true_l in Hcond]).
    split; [auto|]. intros [?|(? & [= <-] & ? & _)]; [done|congruence].
Qed.

Lemma elem_of_foldl_add_link acc l u :
  u ∈ foldl add_link acc l ↔ u ∈ acc ∨ ∃ f, f ∈ l ∧ link_candidate f u.
Proof.
  revert acc; induction l as [|f l IH]; intros acc; simpl.
  - split; [auto|]. intros [?|(f & ?%elem_of_nil & _)]; done.
  - rewrite IH, elem_of_add_link. split.
    + intros [[?|?]|(f' & ? & ?)]; [by left|right..].
      * exists f. split; [apply elem_of_cons; by left|done].
      * exists f'. split; [apply elem_of_cons; by right|done].
    + intros [?|(f' & [->|?]%elem_of_cons & ?)]; [by left; left|by left; right|].
      right. by exists f'.
Qed.

Lemma elem_of_foldl_add_anchor base acc l u :
  u ∈ foldl (add_anchor base) acc l
  ↔ u ∈ acc ∨ ∃ a, a ∈ l ∧ anchor_candidate base a u.
Proof.
  revert acc; induction l as [|a l IH]; intros acc; simpl.
  - split; [auto|]. intros [?|(f & ?%elem_of_nil & _)]; done.
  - rewrite IH, elem_of_add_anchor. split.
    + intros [[?|?]|(a' & ? & ?)]; [by left|right..].
      * exists a. split; [apply elem_of_cons; by left|done].
      * exists a'. split; [apply elem_of_cons; by right|done].
    + intros [?|(a' & [->|?]%elem_of_cons & ?)]; [by left; left|by left; right|].
      right. by exists a'.
Qed.

Lemma validated_Returns sites l :
  validated session_get parse sites = Returns l →
  l = List.filter (fetch_ok session_get parse) sites.
Proof.
  revert l; induction sites as [|u sites IH]; intros l; simpl.
  - by intros [= <-].
  - unfold fetch_ok at 1.
    destruct (fetch_feed session_get parse u) as [[doc|]|]; [| |done];
      destruct (validated session_get parse sites) as [l'|]; try done;
      intros [= <-]; by rewrite (IH l').
Qed.

Lemma validated_Raises sites :
  validated session_get parse sites = Raises
  ↔ ∃ u, u ∈ sites ∧ fetch_feed session_get parse u = Raises.
Proof.
  induction sites as [|u sites IH]; simpl.
  - split; [done|]. by intros (u & ?%elem_of_nil & _).
  - destruct (fetch_feed session_get parse u) as [r|] eqn:Hu.
    + destruct (validated session_get parse sites) as [l'|].
      * split; [done|].
        intros (u' & [->|Hin]%elem_of_cons & Hraise); [congruence|].
        assert (@Returns (list string) l' = Raises); [|done].
        apply IH. eauto.
      * split; [|done]. intros _.
        destruct (proj1 IH eq_refl) as (u' & ? & ?).
        exists u'. split; [apply elem_of_cons; by right|done].
    + split; [|done]. intros _. exists u.
      split; [apply elem_of_cons; by left|done].
Qed.

End Discovery.

(** X12.  Where the candidates of discovery come from.  A URL is a
    candidate exactly when it is the non-empty [href] of one of at least two
    [link] tags, on a tag whose [type] holds [rss] or [xml], or when the
    address of the page has a scheme and a host and the URL is
    [scheme://host] followed by the [href] of an [a] tag that holds [xml],
    [rss] or [feed]. *)
Theorem possible_feeds_origin (urlparse : string → string * option string)
    (site : string) (html : Html) (u : string) :
  u ∈ possible_feeds urlparse site html
  ↔ ((1 < length (links_alternate html))%nat
     ∧ ∃ f, f ∈ links_alternate html ∧ link_candidate f u)
    ∨ (∃ scheme hostname,
         urlparse site = (scheme, Some hostname)
         ∧ scheme ≠ "" ∧ hostname ≠ ""
         ∧ ∃ a, a ∈ a_tags html
                ∧ anchor_candidate (scheme +:+ "://" +:+ hostname) a u).
Proof.
  unfold possible_feeds.
  set (from_links :=
         if (1 <? length (links_alternate html))%nat
         then foldl add_link ∅ (links_alternate html) else ∅).
  assert (u ∈ from_links
          ↔ (1 < length (links_alternate html))%nat
            ∧ ∃ f, f ∈ links_alternate html ∧ link_candidate f u) as Hlinks.
  { unfold from_links. destruct (Nat.ltb_spec 1 (length (links_alternate html))).
    - rewrite elem_of_foldl_add_link. split.
      + intros [?%elem_of_empty|?]; done.
      + intros [_ ?]. by right.
    - split; [by intros ?%elem_of_empty|]. intros [? _]. lia. }
  destruct (urlparse site) as [scheme [hostname|]] eqn:Hurl.
  - destruct (nonempty scheme && nonempty hostname) eqn:Hne.
    + apply andb_true_iff in Hne as [Hs%nonempty_true_iff Hh%nonempty_true_iff].
      rewrite elem_of_foldl_add_anchor, Hlinks. split.
      * intros [?|?]; [by left|right]. by exists scheme, hostname.
      * intros [?|(? & ? & [= <- <-] & _ & _ & ?)]; [by left|by right].
    + rewrite Hlinks. split; [by left|].
      intros [?|(? & ? & [= <- <-] & Hs%nonempty_true_iff
                 & Hh%nonempty_true_iff & _)]; [done|].
      by rewrite Hs, Hh in Hne.
  - rewrite Hlinks. split; [by left|]. by intros [?|(? & ? & ? & _)].
Qed.

(** X13.  When discovery returns, it returns each URL once, and the URLs
    it returns are exactly the candidates of the page for which
    [fetch_feed] gives a document, which is then one without [bozo]. *)
Theorem find_feeds_returns_validated_candidates
    (session_get : string → response) (parse : bytes → FeedParserDict)
    (bs4 : bytes → Html) (urlparse : string → string * option string)
    (site : string) (data : bytes) (l : list string) :
  session_get site = Read data →
  find_feeds session_get parse bs4 urlparse site = Returns l →
  NoDup l
  ∧ ∀ u, u ∈ l
         ↔ u ∈ possible_feeds urlparse site (bs4 data)
           ∧ ∃ doc, fetch_feed session_get parse u = Returns (Some doc)
                    ∧ bozo doc = false.
Proof.
  intros Hsite. unfold find_feeds. rewrite Hsite.
  intros ->%validated_Returns. split.
  - apply NoDup_ListNoDup, List.NoDup_filter, NoDup_ListNoDup, NoDup_elements.
  - intros u. rewrite list_elem_of_In, filter_In, <- list_elem_of_In.
    rewrite elem_of_elements. unfold fetch_ok, fetch_feed.
    destruct (session_get u) as [d| | |?|]; [|split; [by intros [??]|by intros (? & ? & ? & _)]..].
    destruct (bozo (parse d)) eqn:Hbozo.
    + split; [by intros [??]|by intros (? & ? & ? & _)].
    + split; [|by intros [? _]]. intros [? _]. split; [done|]. by exists (parse d).
Qed.

(** X14.  Discovery lets an exception through exactly when the page
    itself cannot be read, whatever the failure, or when the fetch of one of
    its candidates is cancelled. *)
Theorem find_feeds_raises_iff
    (session_get : string → response) (parse : bytes → FeedParserDict)
    (bs4 : bytes → Html) (urlparse : string → string * option string)
    (site : string) :
  find_feeds session_get parse bs4 urlparse site = Raises
  ↔ (∀ data, session_get site ≠ Read data)
    ∨ ∃ data u, session_get site = Read data
                ∧ u ∈ possible_feeds urlparse site (bs4 data)
                ∧ session_get u = Cancelled.
Proof.
  assert (∀ u, fetch_feed session_get parse u = Raises
               ↔ session_get u = Cancelled) as Hfetch.
  { intros u. unfold fetch_feed.
    destruct (session_get u) as [d| | |?|]; try done.
    by destruct (bozo (parse d)). }
  unfold find_feeds. destruct (session_get site) as [data| | |?|] eqn:Hsite;
    try (split; [intros _; by left|done]).
  rewrite validated_Raises. split.
  - intros (u & Hu%elem_of_elements & Hr%Hfetch). right. by exists data, u.
  - intros [H|(? & u & [= <-] & Hu & Hc)]; [by destruct (H data)|].
    exists u. by rewrite elem_of_elements, Hfetch.
Qed.

(** X15.  A page with fewer than two [link] tags is searched as if it had
    none: only its anchors can give candidates. *)
Theorem single_link_tag_is_ignored
    (session_get : string → response) (parse : bytes → FeedParserDict)
    (bs4 : bytes → Html) (urlparse : string → string * option string)
    (site : string) (data : bytes) :
  session_get site = Read data →
  (length (links_alternate (bs4 data)) ≤ 1)%nat →
  find_feeds session_get parse bs4 urlparse site
  = find_feeds session_get parse (λ d, mk_html [] (a_tags (bs4 d))) urlparse
      site.
Proof.
  intros Hsite Hlen. unfold find_feeds. rewrite Hsite.
  by rewrite possible_feeds_few_links.
Qed.

(** X13 at a page with one anchor to the feed of [example.com]. *)
Lemma find_feeds_returns_validated_candidates_witness :
  let find_feeds :=
    find_feeds Samples.example_com Samples.clean_parse
      (λ _, Samples.page_one_anchor) Samples.urlparse_example_com in
  Samples.example_com "https://example.com/" = Read [Byte.x3c]
  ∧ find_feeds "https://example.com/" = Returns ["https://example.com/feed.xml"]
  ∧ NoDup ["https://example.com/feed.xml"]
  ∧ ∀ u, u ∈ ["https://example.com/feed.xml"]
         ↔ u ∈ possible_feeds Samples.urlparse_example_com
                 "https://example.com/" Samples.page_one_anchor
           ∧ ∃ doc, fetch_feed Samples.example_com Samples.clean_parse u
                    = Returns (Some doc)
                    ∧ bozo doc = false.
Proof.
  intros ff. subst ff.
  assert (find_feeds Samples.example_com Samples.clean_parse
            (λ _, Samples.page_one_anchor) Samples.urlparse_example_com
            "https://example.com/"
          = Returns ["https://example.com/feed.xml"]) as Hfound
    by (vm_compute; reflexivity).
  split; [reflexivity|]. split; [exact Hfound|].
  exact (find_feeds_returns_validated_candidates Samples.example_com
           Samples.clean_parse (λ _, Samples.page_one_anchor)
           Samples.urlparse_example_com "https://example.com/" [Byte.x3c]
           ["https://example.com/feed.xml"] eq_refl Hfound).
Defined.

(** X15 at the page with the single [link] tag. *)
Lemma single_link_tag_is_ignored_witness :
  Samples.example_com "https://example.com/" = Read [Byte.x3c]
  ∧ (length (links_alternate Samples.page_one_link) ≤ 1)%nat
  ∧ find_feeds Samples.example_com Samples.clean_parse
      (λ _, Samples.page_one_link) Samples.urlparse_example_com
      "https://example.com/"
    = find_feeds Samples.example_com Samples.clean_parse
        (λ d, mk_html [] (a_tags Samples.page_one_link))
        Samples.urlparse_example_com "https://example.com/".
Proof.
  split; [reflexivity|]. split; [simpl; lia|].
  apply (single_link_tag_is_ignored Samples.example_com Samples.clean_parse
           (λ _, Samples.page_one_link) Samples.urlparse_example_com
           "https://example.com/" [Byte.x3c]); [reflexivity|simpl; lia].
Defined.

(** * Properties of the commands on the feeds of a channel *)

Section Commands.

Implicit Types (feeds : gmap string Feed) (f : Feed).

Lemma with_match_req_id f : match_req (settings f) = None → with_match_req f None = f.
Proof. destruct f as [[l m] r t o]. simpl. by intros ->. Qed.

Lemma with_match_req_twice f rule rule' :
  with_match_req (with_match_req f rule) rule' = with_match_req f rule'.
Proof. done. Qed.

(** The field names that are usable and are not text fields. *)
Lemma elem_of_USABLE_TEXT_FIELDS field :
  field ∈ USABLE_TEXT_FIELDS
  ↔ field ∈ USABLE_FIELDS
    ∧ field ∉ ["published"; "published_parsed"; "updated"; "updated_parsed";
               "created"].
Proof.
  unfold USABLE_TEXT_FIELDS.
  rewrite list_elem_of_In, filter_In, <- list_elem_of_In, negb_true_iff.
  by rewrite bool_decide_eq_false.
Qed.

Lemma usable_text_field_not_parsed_time field :
  field ∈ USABLE_TEXT_FIELDS →
  field ≠ "published_parsed" ∧ field ≠ "updated_parsed".
Proof.
  intros [_ Hnot]%elem_of_USABLE_TEXT_FIELDS.
  split; intros ->; apply Hnot; set_solver.
Qed.

End Commands.

(** X16.  When [rss setmatchreq] does not raise, the feeds of other names
    are as before; an unknown name changes nothing and is answered as such;
    for a known name the rule stored is the pair given, and the cursor, the
    roles, the template and the embed setting of the feed are as before. *)
Theorem rss_set_match_req_sets_only_the_rule (feeds feeds' : gmap string Feed)
    (feed_name : string) (field_and_term : string * string)
    (replies : list reply) :
  rss_set_match_req feeds feed_name field_and_term = Returns (feeds', replies) →
  (∀ other, other ≠ feed_name → feeds' !! other = feeds !! other)
  ∧ match feeds !! feed_name with
    | None => feeds' = feeds ∧ replies = [NoFeedNamed feed_name]
    | Some f =>
        replies = [Tick]
        ∧ ∃ f', feeds' !! feed_name = Some f'
                ∧ match_req (settings f') = Some field_and_term
                ∧ last (settings f') = last (settings f)
                ∧ role_mentions f' = role_mentions f
                ∧ template f' = template f
                ∧ embed_override f' = embed_override f
    end.
Proof.
  unfold rss_set_match_req. destruct (negb _); [done|].
  destruct (feeds !! feed_name) as [f|] eqn:Hf; intros [= <- <-].
  - split; [intros other Hne; by rewrite lookup_insert_ne|].
    split; [done|]. eexists. by rewrite lookup_insert_eq.
  - done.
Qed.

(** X17.  [rss setmatchreq] raises exactly for a field outside the usable
    text fields, before it looks for the feed; and a rule it accepts never
    reads the parsed times: two entries with the same other fields get the
    same verdict. *)
Theorem accepted_rule_reads_text_fields_only (feeds : gmap string Feed)
    (feed_name : string) (field_and_term : string * string) :
  (rss_set_match_req feeds feed_name field_and_term = Raises
   ↔ field_and_term.1 ∉ USABLE_TEXT_FIELDS)
  ∧ (rss_set_match_req feeds feed_name field_and_term ≠ Raises →
     ∀ e e', fields e = fields e' →
             meets_rule (Some field_and_term) e
             = meets_rule (Some field_and_term) e').
Proof.
  assert (rss_set_match_req feeds feed_name field_and_term = Raises
          ↔ field_and_term.1 ∉ USABLE_TEXT_FIELDS) as Hraise.
  { unfold rss_set_match_req. case_bool_decide; simpl.
    - by destruct (feeds !! feed_name).
    - done. }
  split; [done|]. intros Hok e e' Hfields.
  assert (field_and_term.1 ∈ USABLE_TEXT_FIELDS) as Husable.
  { destruct (decide (field_and_term.1 ∈ USABLE_TEXT_FIELDS)); [done|].
    by apply Hraise in n. }
  destruct field_and_term as [field term].
  apply usable_text_field_not_parsed_time in Husable as [Hp Hu].
  unfold meets_rule, getattr. simpl in *.
  rewrite !decide_False by done. by rewrite Hfields.
Qed.

(** X18.  On a feed that has no rule, [rss removematchreq] undoes
    [rss setmatchreq]: the feeds of the channel are again what they were. *)
Theorem remove_match_req_undoes_set (feeds feeds' : gmap string Feed)
    (feed_name : string) (field_and_term : string * string) (f : Feed)
    (replies : list reply) :
  feeds !! feed_name = Some f →
  match_req (settings f) = None →
  rss_set_match_req feeds feed_name field_and_term = Returns (feeds', replies) →
  feed_remove_match_req feeds' feed_name = (feeds, [Tick]).
Proof.
  intros Hf Hnone. unfold rss_set_match_req. destruct (negb _); [done|].
  rewrite Hf. intros [= <- <-]. unfold feed_remove_match_req.
  rewrite lookup_insert_eq, insert_insert_eq, with_match_req_twice.
  by rewrite with_match_req_id, insert_id.
Qed.

(** X19.  After [rss removematchreq] a feed of that name has no rule, and
    a second removal changes nothing more; a feed that had no rule, and an
    unknown name, leave the feeds of the channel as they were. *)
Theorem feed_remove_match_req_clears_rule (feeds : gmap string Feed)
    (feed_name : string) :
  let feeds' := (feed_remove_match_req feeds feed_name).1 in
  (∀ f', feeds' !! feed_name = Some f' → match_req (settings f') = None)
  ∧ (feed_remove_match_req feeds' feed_name).1 = feeds'
  ∧ match feeds !! feed_name with
    | None => feed_remove_match_req feeds feed_name
              = (feeds, [NoFeedNamed feed_name])
    | Some f => match_req (settings f) = None → feeds' = feeds
    end.
Proof.
  unfold feed_remove_match_req.
  destruct (feeds !! feed_name) as [f|] eqn:Hf; simpl.
  - rewrite lookup_insert_eq. simpl. split_and!.
    + by intros f' [= <-].
    + by rewrite insert_insert_eq.
    + intros Hnone. by rewrite with_match_req_id, insert_id.
  - rewrite Hf. split_and!; [congruence|done..].
Qed.

(** X20.  The commands on the match rule never add a feed to the channel
    nor take one away, and never touch the cursor of any feed. *)
Theorem match_req_commands_keep_feeds_and_cursors (feeds : gmap string Feed)
    (feed_name : string) (field_and_term : string * string) :
  let keeps (feeds' : gmap string Feed) :=
    dom feeds' = dom feeds
    ∧ ∀ n f f', feeds !! n = Some f → feeds' !! n = Some f' →
                last (settings f') = last (settings f) in
  keeps (feed_remove_match_req feeds feed_name).1
  ∧ match rss_set_match_req feeds feed_name field_and_term with
    | Returns (feeds', _) => keeps feeds'
    | Raises => True
    end.
Proof.
  assert (∀ f rule, feeds !! feed_name = Some f →
            dom (<[feed_name := with_match_req f rule]> feeds) = dom feeds
            ∧ ∀ n g g', feeds !! n = Some g →
                <[feed_name := with_match_req f rule]> feeds !! n = Some g' →
                last (settings g') = last (settings g)) as Hkeep.
  { intros f rule Hf. split.
    - by apply dom_insert_lookup_L.
    - intros n g g' Hg. destruct (decide (feed_name = n)) as [<-|Hne].
      + rewrite lookup_insert_eq. intros [= <-]. by simplify_eq.
      + rewrite lookup_insert_ne by done. congruence. }
  intros keeps. subst keeps. simpl. split.
  - unfold feed_remove_match_req.
    destruct (feeds !! feed_name) as [f|] eqn:Hf; simpl; [by apply Hkeep|].
    split; [done|congruence].
  - unfold rss_set_match_req. destruct (negb _); [done|].
    destruct (feeds !! feed_name) as [f|] eqn:Hf; simpl; [by apply Hkeep|].
    split; [done|congruence].
Qed.

(** X16 at the sample channel: a rule for [news]. *)
Lemma rss_set_match_req_sets_only_the_rule_witness :
  let feeds' :=
    <["news" := with_match_req SampleChannel.news (Some ("title", "foo"))]>
      SampleChannel.channel in
  rss_set_match_req SampleChannel.channel "news" ("title", "foo")
  = Returns (feeds', [Tick])
  ∧ feeds' !! "releases" = SampleChannel.channel !! "releases".
Proof.
  intros feeds'.
  assert (rss_set_match_req SampleChannel.channel "news" ("title", "foo")
          = Returns (feeds', [Tick])) as Hset by (vm_compute; reflexivity).
  split; [exact Hset|].
  apply (proj1 (rss_set_match_req_sets_only_the_rule SampleChannel.channel
                  feeds' "news" ("title", "foo") [Tick] Hset) "releases").
  discriminate.
Defined.

(** X17 at the sample channel: the rule [(title, "foo")] is accepted, and
    an entry gets the same verdict with and without a published time. *)
Lemma accepted_rule_reads_text_fields_only_witness :
  rss_set_match_req SampleChannel.channel "news" ("title", "foo") ≠ Raises
  ∧ meets_rule (Some ("title", "foo")) (Samples.titled "FooBar")
    = meets_rule (Some ("title", "foo"))
        (Samples.published_at (Samples.date 2024 1 1 0 0) "FooBar").
Proof.
  assert (rss_set_match_req SampleChannel.channel "news" ("title", "foo")
          ≠ Raises) as Hok by (vm_compute; discriminate).
  split; [exact Hok|].
  exact (proj2 (accepted_rule_reads_text_fields_only SampleChannel.channel
                  "news" ("title", "foo")) Hok
           (Samples.titled "FooBar")
           (Samples.published_at (Samples.date 2024 1 1 0 0) "FooBar")
           eq_refl).
Defined.

(** X18 at the sample channel: a rule for [news], set and removed. *)
Lemma remove_match_req_undoes_set_witness :
  let feeds' :=
    <["news" := with_match_req SampleChannel.news (Some ("title", "foo"))]>
      SampleChannel.channel in
  SampleChannel.channel !! "news" = Some SampleChannel.news
  ∧ match_req (settings SampleChannel.news) = None
  ∧ rss_set_match_req SampleChannel.channel "news" ("title", "foo")
    = Returns (feeds', [Tick])
  ∧ feed_remove_match_req feeds' "news" = (SampleChannel.channel, [Tick]).
Proof.
  intros feeds'.
  assert (rss_set_match_req SampleChannel.channel "news" ("title", "foo")
          = Returns (feeds', [Tick])) as Hset by (vm_compute; reflexivity).
  split; [reflexivity|]. split; [reflexivity|]. split; [exact Hset|].
  exact (remove_match_req_undoes_set SampleChannel.channel feeds' "news"
           ("title", "foo") SampleChannel.news [Tick] eq_refl eq_refl Hset).
Defined.

(** * Properties of [rss rolementions] *)

Section RoleOrder.

Variable role_gt : Z → Z → bool.
Hypothesis role_gt_irrefl : ∀ a, role_gt a a = false.
Hypothesis role_gt_trans :
  ∀ a b c, role_gt a b = true → role_gt b c = true → role_gt a c = true.
Hypothesis role_gt_total :
  ∀ a b, a ≠ b → role_gt a b = true ∨ role_gt b a = true.

(** What is not above [b] is not above anything that [b] is not above. *)
Lemma role_not_gt_trans a b c :
  role_gt a b = false → role_gt b c = false → role_gt a c = false.
Proof.
  intros Hab Hbc. destruct (role_gt a c) eqn:Hac; [|done].
  destruct (decide (b = c)) as [->|Hne]; [congruence|].
  destruct (role_gt_total b c Hne) as [?|Hcb]; [congruence|].
  rewrite <- Hab. symmetry. by apply role_gt_trans with c.
Qed.

Lemma foldl_max_role m l :
  let m' := foldl (λ m x, if role_gt x m then x else m) m l in
  role_gt m m' = false ∧ ∀ r, r ∈ l → role_gt r m' = false.
Proof.
  revert m; induction l as [|x l IH]; intros m; simpl.
  - split; [done|]. by intros r ?%elem_of_nil.
  - destruct (IH (if role_gt x m then x else m)) as [Hm1 Hl].
    set (m' := foldl _ _ l) in *.
    assert (role_gt m m' = false ∧ role_gt x m' = false) as [Hm Hx].
    { destruct (role_gt x m) eqn:Hxm.
      - split; [|done]. destruct (role_gt m m') eqn:Hmm'; [|done].
        rewrite <- Hm1. symmetry. by apply role_gt_trans with m.
      - split; [done|]. by apply role_not_gt_trans with m. }
    split; [done|]. intros r [->|Hr]%elem_of_cons; auto.
Qed.

(** No role of the list is above [max(roles)]. *)
Lemma max_role_upper l m r :
  max_role role_gt l = Some m → r ∈ l → role_gt r m = false.
Proof.
  destruct l as [|x l]; [done|]. simpl. intros [= <-].
  destruct (foldl_max_role x l) as [Hx Hl].
  intros [->|Hr]%elem_of_cons; auto.
Qed.

End RoleOrder.

(** X23.  When the order of the roles is a strict total order and the
    author is not the owner of the guild, [rss rolementions] ticks only if
    none of the roles given is above the highest role of the author. *)
Theorem feedset_mentions_respects_hierarchy (role_gt : Z → Z → bool)
    (feeds : gmap string Feed) (name : string) (non_everyone_roles : list Z)
    (top_role : Z) :
  (∀ a, role_gt a a = false) →
  (∀ a b c, role_gt a b = true → role_gt b c = true → role_gt a c = true) →
  (∀ a b, a ≠ b → role_gt a b = true ∨ role_gt b a = true) →
  Tick ∈ (feedset_mentions role_gt feeds name non_everyone_roles top_role
            false).2 →
  ∀ r, r ∈ non_everyone_roles → role_gt r top_role = false.
Proof.
  intros Hirrefl Htrans Htotal. unfold feedset_mentions.
  set (roles := list_to_set non_everyone_roles : gset Z).
  destruct (4 <? size roles)%nat;
    [by intros [=]%list_elem_of_singleton|].
  destruct (max_role role_gt (elements roles)) as [m|] eqn:Hmax.
  - rewrite andb_true_r. destruct (role_gt m top_role) eqn:Hm;
      [by intros [=]%list_elem_of_singleton|].
    intros _ r Hr.
    apply (role_not_gt_trans role_gt Htrans Htotal) with m; [|done].
    apply (max_role_upper role_gt Hirrefl Htrans Htotal (elements roles));
      [done|].
    unfold roles. by rewrite elem_of_elements, elem_of_list_to_set.
  - intros _ r Hr. exfalso.
    assert (r ∈ elements roles) as Hin
      by (unfold roles; by rewrite elem_of_elements, elem_of_list_to_set).
    destruct (elements roles); [by apply elem_of_nil in Hin|done].
Qed.

(** X23 at the sample channel: an author whose highest role is 8 sets the
    roles 3 and 5 for [news]. *)
Lemma feedset_mentions_respects_hierarchy_witness :
  (∀ a, SampleChannel.by_number a a = false)
  ∧ (∀ a b c, SampleChannel.by_number a b = true →
              SampleChannel.by_number b c = true →
              SampleChannel.by_number a c = true)
  ∧ (∀ a b, a ≠ b → SampleChannel.by_number a b = true
                    ∨ SampleChannel.by_number b a = true)
  ∧ Tick ∈ (feedset_mentions SampleChannel.by_number SampleChannel.channel
              "news" [3; 5; 3] 8 false).2
  ∧ ∀ r, r ∈ [3; 5; 3] → SampleChannel.by_number r 8 = false.
Proof.
  assert (∀ a, SampleChannel.by_number a a = false) as Hirrefl
    by (intros a; unfold SampleChannel.by_number; lia).
  assert (∀ a b c, SampleChannel.by_number a b = true →
                   SampleChannel.by_number b c = true →
                   SampleChannel.by_number a c = true) as Htrans
    by (intros a b c; unfold SampleChannel.by_number; lia).
  assert (∀ a b, a ≠ b → SampleChannel.by_number a b = true
                         ∨ SampleChannel.by_number b a = true) as Htotal
    by (intros a b; unfold SampleChannel.by_number; lia).
  assert (Tick ∈ (feedset_mentions SampleChannel.by_number
                    SampleChannel.channel "news" [3; 5; 3] 8 false).2)
    as Htick by (vm_compute; apply elem_of_cons; right;
                 apply elem_of_cons; by left).
  split; [exact Hirrefl|]. split; [exact Htrans|]. split; [exact Htotal|].
  split; [exact Htick|].
  exact (feedset_mentions_respects_hierarchy SampleChannel.by_number
           SampleChannel.channel "news" [3; 5; 3] 8
           Hirrefl Htrans Htotal Htick).
Defined.

(** * The selection on the entries of the parser *)

Section SortedBy.

Context {A : Type} (key : A → outcome (list Z)) (k : A → list Z).

Lemma decorate_Returns l :
  (∀ a, a ∈ l → key a = Returns (k a)) →
  decorate key l = Returns ((λ a, (k a, a)) <$> l).
Proof.
  induction l as [|a l IH]; intros H; simpl; [done|].
  rewrite (H a) by (apply elem_of_cons; by left).
  rewrite IH; [done|]. intros b Hb. apply H, elem_of_cons. by right.
Qed.

Lemma decorate_Raises l :
  decorate key l = Raises ↔ ∃ a, a ∈ l ∧ key a = Raises.
Proof.
  induction l as [|a l IH]; simpl.
  - split; [done|]. by intros (a & ?%elem_of_nil & _).
  - destruct (key a) as [ka|] eqn:Ha.
    + destruct (decorate key l) as [kl|].
      * split; [done|].
        intros (b & [->|Hb]%elem_of_cons & Hraise); [congruence|].
        assert (@Returns (list (list Z * A)) kl = Raises); [|done].
        apply IH. eauto.
      * split; [|done]. intros _.
        destruct (proj1 IH eq_refl) as (b & ? & ?).
        exists b. split; [apply elem_of_cons; by right|done].
    + split; [|done]. intros _. exists a.
      split; [apply elem_of_cons; by left|done].
Qed.

(** Sorting the pairs by their keys sorts the elements by their keys. *)
Lemma insert_by_decorated a l :
  insert_by fst (k a, a) ((λ a, (k a, a)) <$> l)
  = (λ a, (k a, a)) <$> insert_by k a l.
Proof.
  induction l as [|b l IH]; [done|].
  rewrite fmap_cons. cbn [insert_by fst].
  destruct (tuple_lt (k b) (k a)); [|done]. by rewrite IH.
Qed.

Lemma sorted_decorated l :
  snd <$> sorted fst ((λ a, (k a, a)) <$> l) = sorted k l.
Proof.
  assert (sorted fst ((λ a, (k a, a)) <$> l) = (λ a, (k a, a)) <$> sorted k l)
    as ->.
  { induction l as [|a l IH]; [done|].
    rewrite fmap_cons. cbn [sorted]. rewrite IH. apply insert_by_decorated. }
  rewrite <- list_fmap_compose. apply list_fmap_id.
Qed.

Lemma sorted_by_Returns l :
  (∀ a, a ∈ l → key a = Returns (k a)) →
  sorted_by key l = Returns (sorted k l).
Proof.
  intros H. unfold sorted_by. rewrite decorate_Returns by done.
  by rewrite sorted_decorated.
Qed.

End SortedBy.

Section RawSelection.

Implicit Types (e : Raw.Entry) (response : Raw.FeedParserDict)
  (feed_settings : FeedSettings).

(** When [process_entry_time] raises. *)
Lemma raw_process_entry_time_Raises e :
  Raw.process_entry_time e = Raises
  ↔ Raw.published_parsed e = Some None
    ∨ Raw.published_parsed e = None ∧ Raw.updated_parsed e = Some None.
Proof.
  unfold Raw.process_entry_time.
  destruct (Raw.published_parsed e) as [[t|]|];
    [split; [done|by intros [?|[? _]]]|split; [by left|done]|].
  destruct (Raw.updated_parsed e) as [[t|]|].
  - split; [done|]. by intros [?|[_ ?]].
  - split; [by right|done].
  - split; [done|]. by intros [?|[_ ?]].
Qed.

Lemma raw_process_entry_time_time_key e :
  Raw.process_entry_time e ≠ Raises →
  Raw.process_entry_time e = Returns (Raw.time_key e).
Proof. unfold Raw.time_key. by destruct (Raw.process_entry_time e). Qed.

Lemma raw_newer_matching_Returns rule cursor es :
  (∀ e, e ∈ es → Raw.process_entry_time e ≠ Raises) →
  Raw.newer_matching rule cursor es
  = Returns (List.filter (raw_newer rule cursor) es).
Proof.
  induction es as [|e es IH]; intros H; [done|].
  cbn [Raw.newer_matching List.filter].
  rewrite (raw_process_entry_time_time_key e)
    by (apply H, elem_of_cons; by left).
  rewrite IH by (intros b Hb; apply H, elem_of_cons; by right).
  done.
Qed.

Lemma raw_newer_matching_Raises rule cursor es :
  Raw.newer_matching rule cursor es = Raises
  ↔ ∃ e, e ∈ es ∧ Raw.process_entry_time e = Raises.
Proof.
  induction es as [|e es IH]; simpl.
  - split; [done|]. by intros (a & ?%elem_of_nil & _).
  - destruct (Raw.process_entry_time e) as [ka|] eqn:Ha.
    + destruct (Raw.newer_matching rule cursor es) as [kl|].
      * split; [done|].
        intros (b & [->|Hb]%elem_of_cons & Hraise); [congruence|].
        assert (@Returns (list Raw.Entry) kl = Raises); [|done].
        apply IH. eauto.
      * split; [|done]. intros _.
        destruct (proj1 IH eq_refl) as (b & ? & ?).
        exists b. split; [apply elem_of_cons; by right|done].
    + split; [|done]. intros _. exists e.
      split; [apply elem_of_cons; by left|done].
Qed.

(** Without [force], on a document whose keys all return, the selection is
    the sorted comprehension. *)
Lemma raw_to_send_normal response feed_settings :
  (∀ e, e ∈ Raw.entries response → Raw.process_entry_time e ≠ Raises) →
  Raw.to_send response feed_settings false
  = Returns (Some (sorted Raw.time_key
                     (List.filter
                        (raw_newer (match_req feed_settings)
                           (effective_last (last feed_settings)))
                        (Raw.entries response)))).
Proof.
  intros H. unfold Raw.to_send. rewrite raw_newer_matching_Returns by done.
  rewrite (sorted_by_Returns _ Raw.time_key); [done|].
  intros e [He _]%list_elem_of_In%filter_In.
  apply raw_process_entry_time_time_key, H. by apply list_elem_of_In.
Qed.

(** Without [force], the selection raises exactly when a key does. *)
Lemma raw_to_send_normal_Raises response feed_settings :
  Raw.to_send response feed_settings false = Raises
  ↔ ∃ e, e ∈ Raw.entries response ∧ Raw.process_entry_time e = Raises.
Proof.
  split.
  - intros Hraise.
    destruct (Raw.newer_matching (match_req feed_settings)
                (effective_last (last feed_settings))
                (Raw.entries response)) as [l|] eqn:Hl;
      [|by apply raw_newer_matching_Raises in Hl].
    exfalso.
    assert (∀ e, e ∈ Raw.entries response →
                 Raw.process_entry_time e ≠ Raises) as Hall.
    { intros e He Hr.
      assert (@Returns (list Raw.Entry) l = Raises); [|done].
      rewrite <- Hl. apply raw_newer_matching_Raises. eauto. }
    by rewrite raw_to_send_normal in Hraise.
  - intros Hex. unfold Raw.to_send.
    by rewrite (proj2 (raw_newer_matching_Raises _ _ _) Hex).
Qed.

(** A selection that returns comes from a document whose keys all return. *)
Lemma raw_to_send_normal_Returns response feed_settings sel :
  Raw.to_send response feed_settings false = Returns (Some sel) →
  (∀ e, e ∈ Raw.entries response → Raw.process_entry_time e ≠ Raises)
  ∧ sel = sorted Raw.time_key
            (List.filter
               (raw_newer (match_req feed_settings)
                  (effective_last (last feed_settings)))
               (Raw.entries response)).
Proof.
  intros Hsel.
  assert (∀ e, e ∈ Raw.entries response →
               Raw.process_entry_time e ≠ Raises) as Hall.
  { intros e He Hr.
    assert (Raw.to_send response feed_settings false = Raises) as Hraise
      by (apply raw_to_send_normal_Raises; eauto).
    congruence. }
  split; [done|]. rewrite raw_to_send_normal in Hsel by done. congruence.
Qed.

(** The entries whose dates were read are selected as [to_send] says. *)
Lemma raw_process_entry_time_untyped x :
  Raw.process_entry_time (untyped x) = Returns (process_entry_time x).
Proof.
  unfold Raw.process_entry_time, process_entry_time, untyped. simpl.
  destruct (published_parsed x); [done|]. simpl.
  by destruct (updated_parsed x).
Qed.

Lemma raw_time_key_untyped x : Raw.time_key (untyped x) = process_entry_time x.
Proof. unfold Raw.time_key. by rewrite raw_process_entry_time_untyped. Qed.

Lemma raw_meets_rule_untyped rule x :
  Raw.meets_rule rule (untyped x) = meets_rule rule x.
Proof.
  destruct rule as [[field_name term]|]; [|done].
  unfold Raw.meets_rule, meets_rule, Raw.getattr, getattr, untyped. simpl.
  repeat case_decide.
  - by destruct (published_parsed x).
  - by destruct (updated_parsed x).
  - done.
Qed.

Lemma raw_entry_truthy_untyped x :
  Raw.entry_truthy (untyped x) = entry_truthy x.
Proof.
  unfold Raw.entry_truthy, entry_truthy, untyped. simpl.
  by destruct (published_parsed x), (updated_parsed x).
Qed.

Lemma sorted_fmap {A B} (f : A → B) (kb : B → list Z) (l : list A) :
  sorted kb (f <$> l) = f <$> sorted (kb ∘ f) l.
Proof.
  assert (∀ a l, insert_by kb (f a) (f <$> l) = f <$> insert_by (kb ∘ f) a l)
    as Hins.
  { intros a l'. induction l' as [|b l' IH]; [done|].
    rewrite fmap_cons. cbn [insert_by]. unfold compose at 1 2.
    destruct (tuple_lt (kb (f b)) (kb (f a))); [|done]. by rewrite IH. }
  induction l as [|a l IH]; [done|].
  rewrite fmap_cons. cbn [sorted]. by rewrite IH, Hins.
Qed.

Lemma filter_fmap_bool {A B} (f : A → B) (P : B → bool) (l : list A) :
  List.filter P (f <$> l) = f <$> List.filter (P ∘ f) l.
Proof.
  induction l as [|a l IH]; [done|].
  rewrite fmap_cons. simpl. unfold compose at 1.
  destruct (P (f a)); by rewrite IH.
Qed.

Lemma find_fmap_bool {A B} (f : A → B) (P : B → bool) (l : list A) :
  List.find P (f <$> l) = f <$> List.find (P ∘ f) l.
Proof.
  induction l as [|a l IH]; [done|].
  rewrite fmap_cons. simpl. unfold compose at 1. by destruct (P (f a)).
Qed.

End RawSelection.

(** C1 at a document that holds an entry whose date was not read.  The
    entry [news] is above the cursor of a fresh feed and meets the absent
    rule, so it is to be returned; the key of the other entry raises inside
    the comprehension and nothing is returned. *)
Theorem normal_selection_raises_on_unparsed_date :
  let news := RawSamples.published_at (Samples.date 2024 1 1 0 10) "news" in
  Raw.entries RawSamples.one_unparsed = [news; RawSamples.unparsed "no date"]
  ∧ Raw.process_entry_time news = Returns [2024; 1; 1; 0; 10]
  ∧ tuple_gt [2024; 1; 1; 0; 10] (effective_last (last Samples.fresh)) = true
  ∧ Raw.meets_rule (match_req Samples.fresh) news = true
  ∧ Raw.process_entry_time (RawSamples.unparsed "no date") = Raises
  ∧ Raw.to_send RawSamples.one_unparsed Samples.fresh false = Raises.
Proof. by vm_compute. Qed.

(** C4 at two entries with a date that was not read.  The first has no
    published time but an updated one, the second has no time at all; the
    keys to return are the updated time and the sentinel, and both calls
    raise. *)
Theorem time_key_raises_on_unparsed_date :
  Raw.process_entry_time
    (RawSamples.unparsed_but_updated (Samples.date 2024 2 2 0 0) "edited")
  = Raises
  ∧ Raw.process_entry_time (RawSamples.updated_unparsed "no date") = Raises.
Proof. by vm_compute. Qed.


Section AnyFolding.

(** The case folding of the language, of which only this is used: what it
    returns holds no ASCII upper-case letter. *)
Variable fold : string → string.
Hypothesis fold_not_upper : ∀ s, has_upper (fold s) = false.

Lemma meets_rule_with_casefold rule e :
  meets_rule rule e = meets_rule_with casefold rule e.
Proof. done. Qed.

(** Under any such folding a term with an ASCII upper-case letter is not
    met on a field that holds a string. *)
Lemma uppercase_term_never_matches_under_any_folding e field_name term s :
  has_upper term = true →
  getattr e field_name = Some (VStr s) →
  meets_rule_with fold (Some (field_name, term)) e = false.
Proof.
  intros Hup Hd. unfold meets_rule_with. rewrite Hd.
  destruct (negb (truthy (VStr s))); [done|].
  destruct (str_in term (fold s)) eqn:Hin; [|done].
  apply str_in_spec in Hin as (a & b & Hs).
  pose proof (fold_not_upper s) as Hno.
  rewrite Hs, !has_upper_app, Hup in Hno.
  by rewrite orb_true_r in Hno.
Qed.

End AnyFolding.

(** * Further properties on the entries of the parser *)

Section RawMore.

Lemma sorted_ext {A} (k k' : A → list Z) (l : list A) :
  (∀ a, k a = k' a) → sorted k l = sorted k' l.
Proof.
  intros Hk.
  assert (∀ a l, insert_by k a l = insert_by k' a l) as Hins.
  { intros a l'. induction l' as [|b l' IH]; [done|]. simpl.
    by rewrite !Hk, IH. }
  induction l as [|a l IH]; [done|]. simpl. by rewrite IH, Hins.
Qed.

Lemma find_ext_bool {A} (P Q : A → bool) (l : list A) :
  (∀ a, P a = Q a) → List.find P l = List.find Q l.
Proof. intros H. induction l as [|a l IH]; [done|]. simpl. by rewrite H, IH. Qed.

End RawMore.

(** X1.  Without [force], when the selection returns, the entries
    delivered with one and the same time-key come in the order in which the
    document lists them: for a key above the cursor they are the entries of
    that key that meet the rule, as they stand in the document, and for any
    other key there are none. *)
Theorem raw_selection_keeps_document_order (response : Raw.FeedParserDict)
    (feed_settings : FeedSettings) (sel : list Raw.Entry) (k : list Z) :
  Raw.to_send response feed_settings false = Returns (Some sel) →
  List.filter (λ e, bool_decide (Raw.time_key e = k)) sel
  = if tuple_gt k (effective_last (last feed_settings))
    then List.filter
           (λ e, bool_decide (Raw.time_key e = k)
                 && Raw.meets_rule (match_req feed_settings) e)
           (Raw.entries response)
    else [].
Proof.
  intros [_ ->]%raw_to_send_normal_Returns.
  rewrite sorted_stable, filter_filter_bool. unfold raw_newer.
  destruct (tuple_gt k _) eqn:Hgt.
  - apply filter_ext_bool. intros a _.
    case_bool_decide as Hk; [|by rewrite andb_false_r].
    by rewrite Hk, Hgt, andb_true_r.
  - rewrite <- (filter_none (Raw.entries response)).
    apply filter_ext_bool. intros a _.
    case_bool_decide as Hk; [|by rewrite andb_false_r].
    by rewrite Hk, Hgt.
Qed.

(** X1 at two entries of the same minute, newest listed first. *)
Lemma raw_selection_keeps_document_order_witness :
  let a := RawSamples.published_at (mk_struct_time 2024 1 1 0 10 30 0 1 0) "b" in
  let b := RawSamples.published_at (mk_struct_time 2024 1 1 0 10 5 0 1 0) "a" in
  Raw.to_send (Raw.mk_feed [a; b] false) Samples.fresh false
  = Returns (Some [a; b])
  ∧ List.filter (λ e, bool_decide (Raw.time_key e = [2024; 1; 1; 0; 10])) [a; b]
    = [a; b].
Proof.
  intros a b. split; [reflexivity|].
  exact (raw_selection_keeps_document_order (Raw.mk_feed [a; b] false)
           Samples.fresh [a; b] [2024; 1; 1; 0; 10] eq_refl).
Defined.

(** X6.  What [process_entry_time] does on every entry: it returns the five
    leading components of the published time when that key holds a time,
    else of the updated time when the published key is absent and that key
    holds a time, and the sentinel when both keys are absent; it raises when
    the key it reads holds [None].  A key it returns is one or five
    components long and, stored as the cursor, is read back as it is. *)
Theorem raw_time_key_table (x : Raw.Entry) :
  match Raw.published_parsed x, Raw.updated_parsed x with
  | Some (Some t), _ | None, Some (Some t) =>
      Raw.process_entry_time x
      = Returns [tm_year t; tm_mon t; tm_mday t; tm_hour t; tm_min t]
  | Some None, _ | None, Some None => Raw.process_entry_time x = Raises
  | None, None => Raw.process_entry_time x = Returns [0]
  end
  ∧ ∀ k, Raw.process_entry_time x = Returns k →
         (length k = 1 ∨ length k = 5)%nat ∧ effective_last (Some k) = k.
Proof.
  unfold Raw.process_entry_time.
  destruct (Raw.published_parsed x) as [[t|]|].
  - split; [done|]. intros k [= <-]. split; [by right|done].
  - by split.
  - destruct (Raw.updated_parsed x) as [[t|]|].
    + split; [done|]. intros k [= <-]. split; [by right|done].
    + by split.
    + split; [done|]. intros k [= <-]. split; [by left|done].
Qed.

(** X24.  Without [force], the selection raises exactly when the document
    holds an entry whose key raises, and otherwise returns; what it returns
    is a rearrangement of the entries whose key is above the cursor and
    which meet the rule, with exactly those members, in ascending order of
    time-key. *)
Theorem raw_normal_selection_exact (response : Raw.FeedParserDict)
    (feed_settings : FeedSettings) :
  let cursor := effective_last (last feed_settings) in
  let rule := match_req feed_settings in
  (Raw.to_send response feed_settings false = Raises
   ↔ ∃ e, e ∈ Raw.entries response ∧ Raw.process_entry_time e = Raises)
  ∧ ((∀ e, e ∈ Raw.entries response → Raw.process_entry_time e ≠ Raises) →
     ∃ sel, Raw.to_send response feed_settings false = Returns (Some sel))
  ∧ ∀ sel,
      Raw.to_send response feed_settings false = Returns (Some sel) →
      sel ≡ₚ List.filter (raw_newer rule cursor) (Raw.entries response)
      ∧ (∀ e, e ∈ sel
              ↔ e ∈ Raw.entries response
                ∧ (∃ k, Raw.process_entry_time e = Returns k
                        ∧ tuple_gt k cursor = true)
                ∧ Raw.meets_rule rule e = true)
      ∧ StronglySorted (key_le Raw.time_key) sel.
Proof.
  intros cursor rule. split; [apply raw_to_send_normal_Raises|].
  split; [intros H; eexists; by apply raw_to_send_normal|].
  intros sel [Hall ->]%raw_to_send_normal_Returns. fold cursor rule.
  split; [apply sorted_Permutation|].
  split; [|apply sorted_StronglySorted].
  intros e. rewrite sorted_Permutation, list_elem_of_In, filter_In.
  rewrite <- list_elem_of_In. unfold raw_newer. rewrite andb_true_iff. split.
  - intros (He & Hgt & Hm). split_and!; [done| |done].
    exists (Raw.time_key e).
    split; [by apply raw_process_entry_time_time_key, Hall|done].
  - intros (He & (k & Hk & Hgt) & Hm). split_and!; [done| |done].
    unfold Raw.time_key. by rewrite Hk.
Qed.

(** X25.  On a document whose dates were all read, the selection on the
    entries of the parser is the selection [to_send] on the entries with
    their times, with and without [force]. *)
Theorem typed_selection_is_raw_selection (response : FeedParserDict)
    (feed_settings : FeedSettings) (force : bool) :
  Raw.to_send (untyped_feed response) feed_settings force
  = Returns ((λ sel : list Entry, untyped <$> sel)
             <$> to_send response feed_settings force).
Proof.
  destruct force.
  - unfold Raw.to_send, to_send, untyped_feed. simpl. f_equal.
    rewrite find_fmap_bool.
    rewrite (find_ext_bool _ (meets_rule (match_req feed_settings)))
      by (intros a; apply raw_meets_rule_untyped).
    destruct (List.find _ _) as [e|]; [|done]. simpl.
    rewrite raw_entry_truthy_untyped. by destruct (entry_truthy e).
  - rewrite raw_to_send_normal.
    + unfold to_send, untyped_feed, newer_matching. simpl. do 2 f_equal.
      rewrite filter_fmap_bool, sorted_fmap.
      rewrite (sorted_ext _ process_entry_time)
        by (intros a; apply raw_time_key_untyped).
      do 2 f_equal. apply filter_ext_bool. intros a _.
      unfold compose, raw_newer.
      by rewrite raw_time_key_untyped, raw_meets_rule_untyped.
    + intros e (x & -> & _)%list_elem_of_fmap.
      by rewrite raw_process_entry_time_untyped.
Qed.

(** X21.  Once [rss removematchreq] has run on a feed, a poll of that feed
    on a document none of whose keys raises delivers every entry of the
    document that is above the cursor of the feed. *)
Theorem after_remove_every_newer_entry_is_sent (feeds : gmap string Feed)
    (feed_name : string) (f : Feed) (response : Raw.FeedParserDict)
    (e : Raw.Entry) (k : list Z) :
  feeds !! feed_name = Some f →
  (∀ e', e' ∈ Raw.entries response → Raw.process_entry_time e' ≠ Raises) →
  e ∈ Raw.entries response →
  Raw.process_entry_time e = Returns k →
  tuple_gt k (effective_last (last (settings f))) = true →
  ∃ f' sel,
    (feed_remove_match_req feeds feed_name).1 !! feed_name = Some f'
    ∧ Raw.to_send response (settings f') false = Returns (Some sel)
    ∧ e ∈ sel.
Proof.
  intros Hf Hall He Hk Hgt. unfold feed_remove_match_req. rewrite Hf. simpl.
  rewrite lookup_insert_eq. do 2 eexists. split; [reflexivity|].
  split; [by apply raw_to_send_normal|]. simpl.
  rewrite sorted_Permutation, list_elem_of_In, filter_In, <- list_elem_of_In.
  split; [done|]. unfold raw_newer, Raw.time_key. by rewrite Hk, Hgt.
Qed.

(** X21 at the sample channel: with the rule of [releases] removed, the
    entry of 0:10 is delivered although its title does not hold [v2]. *)
Lemma after_remove_every_newer_entry_is_sent_witness :
  let e := RawSamples.published_at (Samples.date 2024 1 1 0 10) "third" in
  let response := untyped_feed Samples.three_entries in
  SampleChannel.channel !! "releases" = Some SampleChannel.releases
  ∧ e ∈ Raw.entries response
  ∧ Raw.process_entry_time e = Returns [2024; 1; 1; 0; 10]
  ∧ tuple_gt [2024; 1; 1; 0; 10]
      (effective_last (last (settings SampleChannel.releases))) = true
  ∧ ∃ f' sel,
      (feed_remove_match_req SampleChannel.channel "releases").1 !! "releases"
      = Some f'
      ∧ Raw.to_send response (settings f') false = Returns (Some sel)
      ∧ e ∈ sel.
Proof.
  intros e response.
  assert (e ∈ Raw.entries response) as He by (apply elem_of_cons; by left).
  assert (∀ e', e' ∈ Raw.entries response →
                Raw.process_entry_time e' ≠ Raises) as Hall.
  { intros e' (x & -> & _)%list_elem_of_fmap.
    by rewrite raw_process_entry_time_untyped. }
  split; [reflexivity|]. split; [exact He|]. split; [reflexivity|].
  split; [reflexivity|].
  exact (after_remove_every_newer_entry_is_sent SampleChannel.channel
           "releases" SampleChannel.releases response e [2024; 1; 1; 0; 10]
           eq_refl Hall He eq_refl eq_refl).
Defined.

Section RoleMax.

Variable role_gt : Z → Z → bool.

(** [max(roles)] is one of the roles. *)
Lemma max_role_elem l m : max_role role_gt l = Some m → m ∈ l.
Proof.
  destruct l as [|x l]; [done|]. simpl. intros [= <-].
  assert (∀ m0, foldl (λ m x, if role_gt x m then x else m) m0 l = m0
                ∨ foldl (λ m x, if role_gt x m then x else m) m0 l ∈ l) as H.
  { induction l as [|y l IH]; intros m0; simpl; [by left|].
    destruct (IH (if role_gt y m0 then y else m0)) as [->|Hin].
    - destruct (role_gt y m0); [right; apply elem_of_cons|]; by left.
    - right. apply elem_of_cons. by right. }
  destruct (H x) as [->|Hin]; apply elem_of_cons; [by left|by right].
Qed.

Hypothesis role_gt_irrefl : ∀ a, role_gt a a = false.
Hypothesis role_gt_trans :
  ∀ a b c, role_gt a b = true → role_gt b c = true → role_gt a c = true.
Hypothesis role_gt_total :
  ∀ a b, a ≠ b → role_gt a b = true ∨ role_gt b a = true.

(** The greatest of the roles given is above [top_role] exactly when one
    of them is. *)
Lemma max_role_above_iff (roles : list Z) (top_role : Z) :
  match max_role role_gt (elements (list_to_set roles : gset Z)) with
  | Some m => role_gt m top_role
  | None => false
  end
  = existsb (λ r, role_gt r top_role) roles.
Proof.
  set (X := list_to_set roles : gset Z).
  assert (∀ r, r ∈ elements X ↔ r ∈ roles) as Hel
    by (intros r; unfold X; by rewrite elem_of_elements, elem_of_list_to_set).
  destruct (max_role role_gt (elements X)) as [m|] eqn:Hmax.
  - destruct (role_gt m top_role) eqn:Hm.
    + symmetry. apply existsb_exists. exists m. split; [|done].
      apply list_elem_of_In, Hel. by apply max_role_elem in Hmax.
    + symmetry. apply not_true_iff_false.
      intros (r & Hr%list_elem_of_In%Hel & Hgt)%existsb_exists.
      pose proof (max_role_upper role_gt role_gt_irrefl role_gt_trans
                    role_gt_total _ _ _ Hmax Hr) as Hrm.
      pose proof (role_not_gt_trans role_gt role_gt_trans role_gt_total
                    _ _ _ Hrm Hm). congruence.
  - symmetry. apply not_true_iff_false.
    intros (r & Hr%list_elem_of_In%Hel & _)%existsb_exists.
    destruct (elements X); [by apply elem_of_nil in Hr|done].
Qed.

End RoleMax.

(** X22.  What [rss rolementions] does, when the order of the roles is a
    strict total order.  With more than four different roles it changes
    nothing and says so; else, for an author who is not the owner and with
    a role above the highest role of the author, it changes nothing and
    says so; else, for an unknown name, it changes nothing and says so; else
    it stores for the feed the ids of the roles given, each once and four at
    most, leaves the cursor, rule, template and embed setting of the feed
    and the other feeds alone, and ticks. *)
Theorem feedset_mentions_decision (role_gt : Z → Z → bool)
    (feeds : gmap string Feed) (name : string) (non_everyone_roles : list Z)
    (top_role : Z) (author_is_owner : bool) :
  (∀ a, role_gt a a = false) →
  (∀ a b c, role_gt a b = true → role_gt b c = true → role_gt a c = true) →
  (∀ a b, a ≠ b → role_gt a b = true ∨ role_gt b a = true) →
  let feeds' :=
    (feedset_mentions role_gt feeds name non_everyone_roles top_role
       author_is_owner).1 in
  let replies :=
    (feedset_mentions role_gt feeds name non_everyone_roles top_role
       author_is_owner).2 in
  if (4 <? length (remove_dups non_everyone_roles))%nat
  then feeds' = feeds ∧ replies = [TooManyRoles]
  else if negb author_is_owner
          && existsb (λ r, role_gt r top_role) non_everyone_roles
  then feeds' = feeds ∧ replies = [RoleAboveOwn]
  else
    match feeds !! name with
    | None => feeds' = feeds ∧ replies = [NoFeedNamed name]
    | Some f =>
        ∃ f' ids,
          feeds' !! name = Some f'
          ∧ role_mentions f' = Some ids
          ∧ (length ids ≤ 4)%nat
          ∧ NoDup ids
          ∧ (∀ r, r ∈ ids ↔ r ∈ non_everyone_roles)
          ∧ settings f' = settings f
          ∧ template f' = template f
          ∧ embed_override f' = embed_override f
          ∧ (∀ other, other ≠ name → feeds' !! other = feeds !! other)
          ∧ replies = [if bool_decide (non_everyone_roles = [])
                       then RolesCleared else RolesSet; Tick]
    end.
Proof.
  intros Hirrefl Htrans Htotal. simpl. unfold feedset_mentions.
  set (roles := list_to_set non_everyone_roles : gset Z).
  assert (size roles = length (remove_dups non_everyone_roles)) as Hsize.
  { assert (roles = list_to_set (remove_dups non_everyone_roles)) as ->.
    { apply set_eq. intros r. unfold roles.
      by rewrite !elem_of_list_to_set, elem_of_remove_dups. }
    apply size_list_to_set, NoDup_remove_dups. }
  rewrite <- Hsize.
  destruct (Nat.ltb_spec 4 (size roles)) as [|Hle]; [done|].
  pose proof (max_role_above_iff role_gt Hirrefl Htrans Htotal
                non_everyone_roles top_role) as Hmax.
  fold roles in Hmax.
  assert ((match max_role role_gt (elements roles) with
           | Some m => role_gt m top_role && negb author_is_owner
           | None => false
           end)
          = negb author_is_owner
            && existsb (λ r, role_gt r top_role) non_everyone_roles) as ->.
  { rewrite <- Hmax. destruct (max_role role_gt (elements roles));
      [apply andb_comm|by rewrite andb_false_r]. }
  destruct (negb author_is_owner && _); [done|].
  destruct (feeds !! name) as [f|] eqn:Hf; [|done].
  exists (with_role_mentions f (elements roles)), (elements roles).
  simpl. rewrite lookup_insert_eq. split_and!; try done.
  - apply NoDup_elements.
  - intros r. unfold roles. by rewrite elem_of_elements, elem_of_list_to_set.
  - intros other Hne. by rewrite lookup_insert_ne.
  - rewrite (bool_decide_ext (roles = ∅) (non_everyone_roles = [])); [done|].
    unfold roles. split.
    + intros Hempty. destruct non_everyone_roles as [|r l]; [done|].
      assert (r ∈ (∅ : gset Z)) as Hr; [|by apply elem_of_empty in Hr].
      rewrite <- Hempty. apply elem_of_list_to_set, elem_of_cons. by left.
    + by intros ->.
Qed.

(** X22 at the sample channel, where an author whose highest role is 8
    gives the role 3 twice and the role 5 for [news]. *)
Lemma feedset_mentions_decision_witness :
  (∀ a, SampleChannel.by_number a a = false)
  ∧ (∀ a b c, SampleChannel.by_number a b = true →
              SampleChannel.by_number b c = true →
              SampleChannel.by_number a c = true)
  ∧ (∀ a b, a ≠ b → SampleChannel.by_number a b = true
                    ∨ SampleChannel.by_number b a = true)
  ∧ ∃ f' ids,
      (feedset_mentions SampleChannel.by_number SampleChannel.channel "news"
         [3; 5; 3] 8 false).1 !! "news" = Some f'
      ∧ role_mentions f' = Some ids
      ∧ (length ids ≤ 4)%nat
      ∧ NoDup ids
      ∧ (∀ r, r ∈ ids ↔ r ∈ [3; 5; 3]).
Proof.
  assert (∀ a, SampleChannel.by_number a a = false) as Hirrefl
    by (intros a; unfold SampleChannel.by_number; lia).
  assert (∀ a b c, SampleChannel.by_number a b = true →
                   SampleChannel.by_number b c = true →
                   SampleChannel.by_number a c = true) as Htrans
    by (intros a b c; unfold SampleChannel.by_number; lia).
  assert (∀ a b, a ≠ b → SampleChannel.by_number a b = true
                         ∨ SampleChannel.by_number b a = true) as Htotal
    by (intros a b; unfold SampleChannel.by_number; lia).
  split; [exact Hirrefl|]. split; [exact Htrans|]. split; [exact Htotal|].
  destruct (feedset_mentions_decision SampleChannel.by_number
              SampleChannel.channel "news" [3; 5; 3] 8 false
              Hirrefl Htrans Htotal)
    as (f' & ids & H1 & H2 & H3 & H4 & H5 & _).
  exists f', ids. by split_and!.
Defined.
